(** * Yahtzee: the turn and scoring engine of [html-experiment/index.js]

    A shallow embedding of the game logic of the browser Yahtzee in
    [src/html-experiment/index.js]: the scoring calculator, the scoreboards,
    the turn and round bookkeeping and the cup-shake reroll.  Of the canvas
    drawing and the sprite slicing only what decides whether the drawing of
    a cup-shake frame throws is kept; the overlay is kept as far as it
    decides which buttons a player can press. *)

From Stdlib Require Import ZArith QArith Qround DecimalString.
From stdpp Require Import gmap strings list fin_maps.

Open Scope Z_scope.

#[local] Set Warnings "-clear-no-such-hyp".

(** ** JavaScript primitives used by the source *)

Module Js.

(** [arr.reduce((a,b) => a+b, 0)] *)
Definition reduce_add (arr : list Z) : Z := foldl (λ a b, a + b) 0 arr.

(** [ToString] of an integral Number: its decimal numeral. *)
Definition to_string (n : Z) : string := NilZero.string_of_int (Z.to_int n).

(** The default comparison of [Array.prototype.sort]: both elements are
    converted to strings and compared by code unit; [sort_le x y] says that
    [y] does not sort strictly before [x]. *)
Definition sort_le (x y : Z) : bool := String.leb (to_string x) (to_string y).

Fixpoint sort_insert (x : Z) (arr : list Z) : list Z :=
  match arr with
  | [] => [x]
  | y :: arr' => if sort_le x y then x :: y :: arr' else y :: sort_insert x arr'
  end.

(** [arr.sort()] without a comparator.  The sort is stable, so it is the
    stable insertion sort under [sort_le]. *)
Fixpoint sort (arr : list Z) : list Z :=
  match arr with
  | [] => []
  | x :: arr' => sort_insert x (sort arr')
  end.

(** [arr.includes(x)] *)
Definition includes (arr : list Z) (x : Z) : bool := bool_decide (x ∈ arr).

(** [[...new Set(arr)]]: the distinct elements in order of first
    occurrence. *)
Definition set_spread (arr : list Z) : list Z :=
  foldl (λ seen v, if includes seen v then seen else seen ++ [v]) [] arr.

(** An object whose keys are array indices (here: die faces), as a list of
    (key, value) pairs.  Such keys are enumerated in ascending numeric
    order, so the list is kept sorted by key. *)
Definition int_obj := list (Z * Z).

Fixpoint obj_get (o : int_obj) (k : Z) : option Z :=
  match o with
  | [] => None
  | (k', c) :: o' => if k' =? k then Some c else obj_get o' k
  end.

Fixpoint obj_set (o : int_obj) (k c : Z) : int_obj :=
  match o with
  | [] => [(k, c)]
  | (k', c') :: o' =>
      if k' =? k then (k, c) :: o'
      else if k <? k' then (k, c) :: (k', c') :: o'
      else (k', c') :: obj_set o' k c
  end.

(** [Object.keys(o)] and [Object.values(o)] *)
Definition keys (o : int_obj) : list Z := o.*1.
Definition values (o : int_obj) : list Z := o.*2.

(** [x || 0] for a property read that may be [undefined] *)
Definition or_zero (x : option Z) : Z := default 0 x.

End Js.

(** ** Scoring calculator *)

Definition sumIfMatch (vals : list Z) (num : Z) : Z :=
  Js.reduce_add (filter (λ v, v = num) vals).

Definition sumAll (vals : list Z) : Z := Js.reduce_add vals.

(** The loop [for (let v of vals) counts[v] = (counts[v] || 0) + 1]. *)
Definition count_faces (vals : list Z) : Js.int_obj :=
  foldl (λ counts v, Js.obj_set counts v (Js.or_zero (Js.obj_get counts v) + 1)) [] vals.

Definition smallStraights : list (list Z) := [[1;2;3;4]; [2;3;4;5]; [3;4;5;6]].
Definition largeStraights : list (list Z) := [[1;2;3;4;5]; [2;3;4;5;6]].

Definition isFullHouse (counts : Js.int_obj) : bool :=
  let countVals := Js.sort (Js.values counts) in
  bool_decide (length (Js.keys counts) = 2%nat)
  && bool_decide (countVals !! 0%nat = Some 2)
  && bool_decide (countVals !! 1%nat = Some 3).

Definition hasSmall (uniqueVals : list Z) : bool :=
  existsb (λ seq, forallb (λ x, Js.includes uniqueVals x) seq) smallStraights.

Definition hasLarge (uniqueVals : list Z) : bool :=
  existsb (λ seq, bool_decide (length seq = length uniqueVals)
                  && forallb (λ x, Js.includes uniqueVals x) seq) largeStraights.

(** [calculatePossibleScores]: the score object is built as in the source,
    an object literal with the six upper keys followed by seven
    assignments. *)
Definition calculatePossibleScores (vals : list Z) : gmap string Z :=
  let counts := count_faces vals in
  let scoreDict : gmap string Z :=
    <["sixes" := sumIfMatch vals 6]> (
    <["fives" := sumIfMatch vals 5]> (
    <["fours" := sumIfMatch vals 4]> (
    <["threes" := sumIfMatch vals 3]> (
    <["twos" := sumIfMatch vals 2]> (
    <["ones" := sumIfMatch vals 1]> ∅))))) in
  let has3 := existsb (λ c, 3 <=? c) (Js.values counts) in
  let scoreDict := <["three_of_a_kind" := if has3 then sumAll vals else 0]> scoreDict in
  let has4 := existsb (λ c, 4 <=? c) (Js.values counts) in
  let scoreDict := <["four_of_a_kind" := if has4 then sumAll vals else 0]> scoreDict in
  let scoreDict := <["full_house" := if isFullHouse counts then 25 else 0]> scoreDict in
  let uniqueVals := Js.sort (Js.set_spread vals) in
  let scoreDict := <["small_straight" := if hasSmall uniqueVals then 30 else 0]> scoreDict in
  let scoreDict := <["large_straight" := if hasLarge uniqueVals then 40 else 0]> scoreDict in
  let has5 := existsb (λ c, c =? 5) (Js.values counts) in
  let scoreDict := <["yahtzee" := if has5 then 50 else 0]> scoreDict in
  let scoreDict := <["chance" := sumAll vals]> scoreDict in
  scoreDict.

(** ** Scoreboards *)

(** The thirteen category keys of [catMap]. *)
Inductive category :=
  Ones | Twos | Threes | Fours | Fives | Sixes | ThreeOfAKind | FourOfAKind | FullHouse |
  SmallStraight | LargeStraight | Yahtzee | Chance.

#[global] Instance category_eq_dec : EqDecision category.
Proof. solve_decision. Defined.

(** The property name a category has in the scoreboard and score objects. *)
Definition key (cat : category) : string :=
  match cat with
  | Ones => "ones"
  | Twos => "twos"
  | Threes => "threes"
  | Fours => "fours"
  | Fives => "fives"
  | Sixes => "sixes"
  | ThreeOfAKind => "three_of_a_kind"
  | FourOfAKind => "four_of_a_kind"
  | FullHouse => "full_house"
  | SmallStraight => "small_straight"
  | LargeStraight => "large_straight"
  | Yahtzee => "yahtzee"
  | Chance => "chance"
  end.

Definition catMap : list category :=
  [Ones; Twos; Threes; Fours; Fives; Sixes;
   ThreeOfAKind; FourOfAKind; FullHouse; SmallStraight; LargeStraight; Yahtzee; Chance].

Definition upperKeys : list category := [Ones; Twos; Threes; Fours; Fives; Sixes].
Definition lowerKeys : list category :=
  [ThreeOfAKind; FourOfAKind; FullHouse; SmallStraight; LargeStraight; Yahtzee; Chance].

(** A scoreboard object: one property per category, [null] ([None]) until
    the category is played. *)
Record scoreboard := {
  ones : option Z;
  twos : option Z;
  threes : option Z;
  fours : option Z;
  fives : option Z;
  sixes : option Z;
  three_of_a_kind : option Z;
  four_of_a_kind : option Z;
  full_house : option Z;
  small_straight : option Z;
  large_straight : option Z;
  yahtzee : option Z;
  chance : option Z
}.

(** [sb[cat]] *)
Definition sb_get (sb : scoreboard) (cat : category) : option Z :=
  match cat with
  | Ones => ones sb
  | Twos => twos sb
  | Threes => threes sb
  | Fours => fours sb
  | Fives => fives sb
  | Sixes => sixes sb
  | ThreeOfAKind => three_of_a_kind sb
  | FourOfAKind => four_of_a_kind sb
  | FullHouse => full_house sb
  | SmallStraight => small_straight sb
  | LargeStraight => large_straight sb
  | Yahtzee => yahtzee sb
  | Chance => chance sb
  end.

(** [sb[cat] = v] *)
Definition sb_set (sb : scoreboard) (cat : category) (v : option Z) : scoreboard :=
  match cat with
  | Ones => Build_scoreboard v (twos sb) (threes sb) (fours sb) (fives sb) (sixes sb)
      (three_of_a_kind sb) (four_of_a_kind sb) (full_house sb) (small_straight sb)
      (large_straight sb) (yahtzee sb) (chance sb)
  | Twos => Build_scoreboard (ones sb) v (threes sb) (fours sb) (fives sb) (sixes sb)
      (three_of_a_kind sb) (four_of_a_kind sb) (full_house sb) (small_straight sb)
      (large_straight sb) (yahtzee sb) (chance sb)
  | Threes => Build_scoreboard (ones sb) (twos sb) v (fours sb) (fives sb) (sixes sb)
      (three_of_a_kind sb) (four_of_a_kind sb) (full_house sb) (small_straight sb)
      (large_straight sb) (yahtzee sb) (chance sb)
  | Fours => Build_scoreboard (ones sb) (twos sb) (threes sb) v (fives sb) (sixes sb)
      (three_of_a_kind sb) (four_of_a_kind sb) (full_house sb) (small_straight sb)
      (large_straight sb) (yahtzee sb) (chance sb)
  | Fives => Build_scoreboard (ones sb) (twos sb) (threes sb) (fours sb) v (sixes sb)
      (three_of_a_kind sb) (four_of_a_kind sb) (full_house sb) (small_straight sb)
      (large_straight sb) (yahtzee sb) (chance sb)
  | Sixes => Build_scoreboard (ones sb) (twos sb) (threes sb) (fours sb) (fives sb) v
      (three_of_a_kind sb) (four_of_a_kind sb) (full_house sb) (small_straight sb)
      (large_straight sb) (yahtzee sb) (chance sb)
  | ThreeOfAKind => Build_scoreboard (ones sb) (twos sb) (threes sb) (fours sb) (fives sb)
      (sixes sb) v (four_of_a_kind sb) (full_house sb) (small_straight sb) (large_straight sb)
      (yahtzee sb) (chance sb)
  | FourOfAKind => Build_scoreboard (ones sb) (twos sb) (threes sb) (fours sb) (fives sb)
      (sixes sb) (three_of_a_kind sb) v (full_house sb) (small_straight sb) (large_straight sb)
      (yahtzee sb) (chance sb)
  | FullHouse => Build_scoreboard (ones sb) (twos sb) (threes sb) (fours sb) (fives sb)
      (sixes sb) (three_of_a_kind sb) (four_of_a_kind sb) v (small_straight sb)
      (large_straight sb) (yahtzee sb) (chance sb)
  | SmallStraight => Build_scoreboard (ones sb) (twos sb) (threes sb) (fours sb) (fives sb)
      (sixes sb) (three_of_a_kind sb) (four_of_a_kind sb) (full_house sb) v (large_straight sb)
      (yahtzee sb) (chance sb)
  | LargeStraight => Build_scoreboard (ones sb) (twos sb) (threes sb) (fours sb) (fives sb)
      (sixes sb) (three_of_a_kind sb) (four_of_a_kind sb) (full_house sb) (small_straight sb) v
      (yahtzee sb) (chance sb)
  | Yahtzee => Build_scoreboard (ones sb) (twos sb) (threes sb) (fours sb) (fives sb) (sixes sb)
      (three_of_a_kind sb) (four_of_a_kind sb) (full_house sb) (small_straight sb)
      (large_straight sb) v (chance sb)
  | Chance => Build_scoreboard (ones sb) (twos sb) (threes sb) (fours sb) (fives sb) (sixes sb)
      (three_of_a_kind sb) (four_of_a_kind sb) (full_house sb) (small_straight sb)
      (large_straight sb) (yahtzee sb) v
  end.

Definition new_scoreboard : scoreboard :=
  Build_scoreboard None None None None None None None None None None None None None.

(** [possible[cat]] for a category key.  Every category key is present in
    the object built by [calculatePossibleScores] (lemma
    [possible_lookup_key] below), so the default is never taken. *)
Definition possible_at (possible : gmap string Z) (cat : category) : Z :=
  default 0 (possible !! key cat).

(** [calculateFinalScore]: the two accumulation loops. *)
Definition add_if_set (sb : scoreboard) (acc : Z) (k : category) : Z :=
  match sb_get sb k with
  | Some v => acc + v
  | None => acc
  end.

Definition calculateFinalScore (sb : scoreboard) : Z * Z * Z * Z :=
  let upperScore := foldl (add_if_set sb) 0 upperKeys in
  let lowerScore := foldl (add_if_set sb) 0 lowerKeys in
  let bonus := if 63 <=? upperScore then 35 else 0 in
  let total := upperScore + bonus + lowerScore in
  (upperScore, bonus, lowerScore, total).

(** ** Game state *)

Definition NUM_DICE : nat := 5.
Definition MAX_TURNS : nat := 13.
Definition MAX_ROLLS_PER_TURN : Z := 2.

Inductive mode := promptPlayers | rolling | scoreSelection | gameOver.

#[global] Instance mode_eq_dec : EqDecision mode.
Proof. solve_decision. Defined.

(** A row of the score-selection table: a used category shows its score and
    no button; an unused one shows the possible score and the two buttons
    [selectScoreCategory(cat, false)] and [selectScoreCategory(cat, true)]. *)
Inductive row :=
  | Used (cat : category) (score : Z)
  | Offer (cat : category) (possibleScore : Z).

(** What [overlayContent.innerHTML] holds. *)
Inductive content :=
  | PlayerPrompt
  | ScoreTable (player : nat) (dice : list Z) (rows : list row)
  | FinalScores (table : list (Z * Z * Z * Z)).

(** The globals of the script.  [shake] is the suspended [animateCupShake]
    call, if any: the number of animation frames it has awaited so far.
    [draws] counts the calls of [Math.random] made so far.
    [diceFacesLoaded] and [cupFramesLoaded] also stand for the arrays
    [diceFaces] and [cupFrames], which the two [onload] handlers fill with
    their six and four canvases just before they set the flags. *)
Record state := {
  numPlayers : nat;
  scoreboards : list scoreboard;
  currentRound : nat;
  currentPlayer : nat;
  diceValues : list Z;
  diceKept : list bool;
  rollsLeft : Z;
  turnEnded : bool;
  gameMode : mode;
  isAnimating : bool;
  overlayActive : bool;
  overlayContent : content;
  diceFacesLoaded : bool;
  cupFramesLoaded : bool;
  shake : option nat;
  draws : nat
}.

(** Assignments to the globals. *)
Definition set_numPlayers (v : nat) (s : state) : state :=
  Build_state v (scoreboards s) (currentRound s) (currentPlayer s) (diceValues s) (diceKept s)
    (rollsLeft s) (turnEnded s) (gameMode s) (isAnimating s) (overlayActive s)
    (overlayContent s) (diceFacesLoaded s) (cupFramesLoaded s) (shake s) (draws s).

Definition set_scoreboards (v : list scoreboard) (s : state) : state :=
  Build_state (numPlayers s) v (currentRound s) (currentPlayer s) (diceValues s) (diceKept s)
    (rollsLeft s) (turnEnded s) (gameMode s) (isAnimating s) (overlayActive s)
    (overlayContent s) (diceFacesLoaded s) (cupFramesLoaded s) (shake s) (draws s).

Definition set_currentRound (v : nat) (s : state) : state :=
  Build_state (numPlayers s) (scoreboards s) v (currentPlayer s) (diceValues s) (diceKept s)
    (rollsLeft s) (turnEnded s) (gameMode s) (isAnimating s) (overlayActive s)
    (overlayContent s) (diceFacesLoaded s) (cupFramesLoaded s) (shake s) (draws s).

Definition set_currentPlayer (v : nat) (s : state) : state :=
  Build_state (numPlayers s) (scoreboards s) (currentRound s) v (diceValues s) (diceKept s)
    (rollsLeft s) (turnEnded s) (gameMode s) (isAnimating s) (overlayActive s)
    (overlayContent s) (diceFacesLoaded s) (cupFramesLoaded s) (shake s) (draws s).

Definition set_diceValues (v : list Z) (s : state) : state :=
  Build_state (numPlayers s) (scoreboards s) (currentRound s) (currentPlayer s) v (diceKept s)
    (rollsLeft s) (turnEnded s) (gameMode s) (isAnimating s) (overlayActive s)
    (overlayContent s) (diceFacesLoaded s) (cupFramesLoaded s) (shake s) (draws s).

Definition set_diceKept (v : list bool) (s : state) : state :=
  Build_state (numPlayers s) (scoreboards s) (currentRound s) (currentPlayer s) (diceValues s) v
    (rollsLeft s) (turnEnded s) (gameMode s) (isAnimating s) (overlayActive s)
    (overlayContent s) (diceFacesLoaded s) (cupFramesLoaded s) (shake s) (draws s).

Definition set_rollsLeft (v : Z) (s : state) : state :=
  Build_state (numPlayers s) (scoreboards s) (currentRound s) (currentPlayer s) (diceValues s)
    (diceKept s) v (turnEnded s) (gameMode s) (isAnimating s) (overlayActive s)
    (overlayContent s) (diceFacesLoaded s) (cupFramesLoaded s) (shake s) (draws s).

Definition set_turnEnded (v : bool) (s : state) : state :=
  Build_state (numPlayers s) (scoreboards s) (currentRound s) (currentPlayer s) (diceValues s)
    (diceKept s) (rollsLeft s) v (gameMode s) (isAnimating s) (overlayActive s)
    (overlayContent s) (diceFacesLoaded s) (cupFramesLoaded s) (shake s) (draws s).

Definition set_gameMode (v : mode) (s : state) : state :=
  Build_state (numPlayers s) (scoreboards s) (currentRound s) (currentPlayer s) (diceValues s)
    (diceKept s) (rollsLeft s) (turnEnded s) v (isAnimating s) (overlayActive s)
    (overlayContent s) (diceFacesLoaded s) (cupFramesLoaded s) (shake s) (draws s).

Definition set_isAnimating (v : bool) (s : state) : state :=
  Build_state (numPlayers s) (scoreboards s) (currentRound s) (currentPlayer s) (diceValues s)
    (diceKept s) (rollsLeft s) (turnEnded s) (gameMode s) v (overlayActive s) (overlayContent s)
    (diceFacesLoaded s) (cupFramesLoaded s) (shake s) (draws s).

Definition set_overlayActive (v : bool) (s : state) : state :=
  Build_state (numPlayers s) (scoreboards s) (currentRound s) (currentPlayer s) (diceValues s)
    (diceKept s) (rollsLeft s) (turnEnded s) (gameMode s) (isAnimating s) v (overlayContent s)
    (diceFacesLoaded s) (cupFramesLoaded s) (shake s) (draws s).

Definition set_overlayContent (v : content) (s : state) : state :=
  Build_state (numPlayers s) (scoreboards s) (currentRound s) (currentPlayer s) (diceValues s)
    (diceKept s) (rollsLeft s) (turnEnded s) (gameMode s) (isAnimating s) (overlayActive s) v
    (diceFacesLoaded s) (cupFramesLoaded s) (shake s) (draws s).

Definition set_diceFacesLoaded (v : bool) (s : state) : state :=
  Build_state (numPlayers s) (scoreboards s) (currentRound s) (currentPlayer s) (diceValues s)
    (diceKept s) (rollsLeft s) (turnEnded s) (gameMode s) (isAnimating s) (overlayActive s)
    (overlayContent s) v (cupFramesLoaded s) (shake s) (draws s).

Definition set_cupFramesLoaded (v : bool) (s : state) : state :=
  Build_state (numPlayers s) (scoreboards s) (currentRound s) (currentPlayer s) (diceValues s)
    (diceKept s) (rollsLeft s) (turnEnded s) (gameMode s) (isAnimating s) (overlayActive s)
    (overlayContent s) (diceFacesLoaded s) v (shake s) (draws s).

Definition set_shake (v : option nat) (s : state) : state :=
  Build_state (numPlayers s) (scoreboards s) (currentRound s) (currentPlayer s) (diceValues s)
    (diceKept s) (rollsLeft s) (turnEnded s) (gameMode s) (isAnimating s) (overlayActive s)
    (overlayContent s) (diceFacesLoaded s) (cupFramesLoaded s) v (draws s).

Definition set_draws (v : nat) (s : state) : state :=
  Build_state (numPlayers s) (scoreboards s) (currentRound s) (currentPlayer s) (diceValues s)
    (diceKept s) (rollsLeft s) (turnEnded s) (gameMode s) (isAnimating s) (overlayActive s)
    (overlayContent s) (diceFacesLoaded s) (cupFramesLoaded s) (shake s) v.

(** The globals as the script declares them, after the start-up call of
    [showPlayerPromptOverlay]. *)
Definition initial_state : state :=
  {| numPlayers := 1; scoreboards := []; currentRound := 1; currentPlayer := 0;
     diceValues := [0; 0; 0; 0; 0];
     diceKept := [false; false; false; false; false];
     rollsLeft := MAX_ROLLS_PER_TURN; turnEnded := false;
     gameMode := promptPlayers; isAnimating := false;
     overlayActive := true; overlayContent := PlayerPrompt;
     diceFacesLoaded := false; cupFramesLoaded := false;
     shake := None; draws := 0 |}.

(** Frame counts of the three phases of [animateCupShake]. *)
Definition stepsIn : nat := 15.
Definition shakeFrames : nat := 36.
Definition stepsOut : nat := 15.

(** Input and timer events of the page. *)
Inductive event :=
  | Keydown (key : string)
  | Mousedown (hit : nat → bool)
  | AnimationFrame
  | GameLoop
  | DiceSpriteLoad
  | CupSpriteLoad
  | SetNumberOfPlayers (n : nat)
  | SelectScoreCategory (cat : category) (forceZero : bool)
  | RestartGame.

(** ** The engine *)

Section Engine.

(** The values [Math.random] returns, in the order of the calls.  The
    Number product [Math.random() * 6] is taken as the exact rational
    product; the binary64 product is that product rounded, which for a few
    values just below a multiple of 1/6 is the next face, and is a face
    from 1 to 6 all the same. *)
Variable random : nat → Q.

(** [Math.floor(Math.random() * 6) + 1] *)
Definition roll_face (n : nat) : Z := Qfloor (random n * 6) + 1.

(** One round of the loop of [rollDice].  A kept flag read past the end of
    [diceKept] is [undefined], which counts as not kept.  A write past the
    end of [diceValues] would extend the array; the list is left as it is
    there.  Neither happens in a state the page reaches: both arrays are
    five-element literals, written only at indices below [NUM_DICE] (lemma
    [well_formed_reachable]). *)
Definition roll_die (s : state) (i : nat) : state :=
  if negb (default false (diceKept s !! i))
  then set_draws (S (draws s))
         (set_diceValues (<[i := roll_face (draws s)]> (diceValues s)) s)
  else s.

Definition rollDice (s : state) : state := foldl roll_die s (seq 0 NUM_DICE).

Definition initScoreboards (n : nat) (s : state) : state :=
  set_scoreboards (replicate n new_scoreboard) s.

Definition beginPlayerTurn (s : state) : state :=
  let s := set_diceValues [0; 0; 0; 0; 0] s in
  let s := set_diceKept [false; false; false; false; false] s in
  let s := set_rollsLeft MAX_ROLLS_PER_TURN s in
  let s := set_turnEnded false s in
  let s := rollDice s in
  set_gameMode rolling s.

Definition showPlayerPromptOverlay (s : state) : state :=
  set_overlayActive true (set_overlayContent PlayerPrompt s).

Definition setNumberOfPlayers (n : nat) (s : state) : state :=
  let s := set_numPlayers n s in
  let s := set_overlayActive false s in
  let s := initScoreboards (numPlayers s) s in
  let s := set_currentRound 1 s in
  let s := set_currentPlayer 0 s in
  beginPlayerTurn s.

(** The table rows [openScoreSelectionOverlay] renders for a scoreboard. *)
Definition score_row (possible : gmap string Z) (sb : scoreboard) (cat : category) : row :=
  match sb_get sb cat with
  | Some score => Used cat score
  | None => Offer cat (possible_at possible cat)
  end.

(** [openScoreSelectionOverlay].  Reading a property of
    [scoreboards[currentPlayer]] throws when the index is out of range;
    then nothing has been written ([None]). *)
Definition openScoreSelectionOverlay (s : state) : option state :=
  let possible := calculatePossibleScores (diceValues s) in
  sb ← scoreboards s !! currentPlayer s;
  Some (set_overlayActive true
         (set_overlayContent
            (ScoreTable (currentPlayer s) (diceValues s) (score_row possible sb <$> catMap)) s)).

(** [applyScoreToCategory]; [None] when [scoreboards[playerIdx]] is
    [undefined] and the assignment throws. *)
Definition applyScoreToCategory (cat : category) (vals : list Z) (playerIdx : nat)
    (forceZero : bool) (s : state) : option state :=
  sb ← scoreboards s !! playerIdx;
  if forceZero
  then Some (set_scoreboards (<[playerIdx := sb_set sb cat (Some 0)]> (scoreboards s)) s)
  else
    let possible := calculatePossibleScores vals in
    Some (set_scoreboards
            (<[playerIdx := sb_set sb cat (Some (possible_at possible cat))]> (scoreboards s)) s).

Definition nextPlayerOrRound (s : state) : state :=
  let s := set_currentPlayer (S (currentPlayer s)) s in
  let s := if bool_decide (numPlayers s ≤ currentPlayer s)%nat
           then set_currentRound (S (currentRound s)) (set_currentPlayer 0 s)
           else s in
  if bool_decide (MAX_TURNS < currentRound s)%nat
  then set_gameMode gameOver s
  else beginPlayerTurn s.

(** [window.selectScoreCategory]; an exception in [applyScoreToCategory]
    ends the handler before anything is written. *)
Definition selectScoreCategory (cat : category) (forceZero : bool) (s : state) : state :=
  match applyScoreToCategory cat (diceValues s) (currentPlayer s) forceZero s with
  | Some s => nextPlayerOrRound (set_overlayActive false s)
  | None => s
  end.

(** [animateCupShake] up to its first [await]. *)
Definition animateCupShake (s : state) : state :=
  if isAnimating s then s
  else
    let s := set_isAnimating true s in
    let s := set_rollsLeft (rollsLeft s - 1) s in
    set_shake (Some 0%nat) s.

(** Whether [drawRollingSceneWithCup] draws die [i] without an exception.
    With [skipUnkept] a die that is not kept is skipped.  A die that is
    drawn reads [diceFaces[val - 1]], which is [undefined] while the dice
    sheet has not been sliced and whenever [val] is not one of the six
    faces; [ctx.drawImage] throws a TypeError on [undefined].  The sprite
    sheets are taken to be images whose frames have a positive width and
    height, so that a sliced face or cup frame is drawn without an
    exception. *)
Definition draws_die (skipUnkept : bool) (s : state) (i : nat) : bool :=
  if skipUnkept && negb (default false (diceKept s !! i)) then true
  else match diceValues s !! i with
       | Some val => diceFacesLoaded s && bool_decide (1 ≤ val ≤ 6)
       | None => false
       end.

(** [drawRollingSceneWithCup]: [true] when the scene is drawn, [false]
    when one of its [ctx.drawImage] calls throws.  The dice are drawn
    first, then the cup frame [cupFrames[cupFrameIdx]], the index being one
    of the [CUP_FRAME_COUNT] frames, so that the frame is [undefined]
    exactly while the cup sheet has not been sliced.  The function reads
    the globals and writes none of them. *)
Definition drawRollingSceneWithCup (skipUnkept : bool) (s : state) : bool :=
  forallb (draws_die skipUnkept s) (seq 0 NUM_DICE) && cupFramesLoaded s.

(** [animateCupShake] from one [await] to the next, when the awaited
    animation frame arrives.  Each of the [stepsIn] frames that move the
    dice in draws the scene with all dice; each of the [shakeFrames] frames
    that shake the cup draws it with the kept dice only, and [rollDice]
    runs after the last of them; each of the [stepsOut] frames that move
    the dice out draws it with all dice, and [isAnimating] is cleared after
    the last.  An exception of the drawing ends the call there: no later
    frame resumes it, the dice are not rolled and [isAnimating] stays set. *)
Definition resumeCupShake (s : state) : state :=
  match shake s with
  | None => s
  | Some waited =>
      let frame := S waited in
      if bool_decide (frame ≤ stepsIn)%nat then
        if drawRollingSceneWithCup false s then set_shake (Some frame) s
        else set_shake None s
      else if bool_decide (frame ≤ stepsIn + shakeFrames)%nat then
        if drawRollingSceneWithCup true s then
          if bool_decide (frame = stepsIn + shakeFrames)%nat
          then set_shake (Some frame) (rollDice s)
          else set_shake (Some frame) s
        else set_shake None s
      else
        if drawRollingSceneWithCup false s then
          if bool_decide (frame < stepsIn + shakeFrames + stepsOut)%nat
          then set_shake (Some frame) s
          else set_shake None (set_isAnimating false s)
        else set_shake None s
  end.

(** The [keydown] listener. *)
Definition on_keydown (k : string) (s : state) : state :=
  if bool_decide (gameMode s = rolling) && negb (isAnimating s) then
    if bool_decide (k = "r" ∨ k = "R") then
      if bool_decide (0 < rollsLeft s) then animateCupShake s else s
    else if bool_decide (k = "e" ∨ k = "E") then
      let s := set_turnEnded true s in
      let s := set_gameMode scoreSelection s in
      default s (openScoreSelectionOverlay s)
    else s
  else s.

(** The [mousedown] listener; [hit i] is the hit test of the click
    against the box of die [i].  The first die hit is toggled, its flag
    being one of the five of [diceKept]. *)
Definition on_mousedown (hit : nat → bool) (s : state) : state :=
  if bool_decide (gameMode s = rolling) && negb (isAnimating s) then
    match List.find hit (seq 0 NUM_DICE) with
    | Some i => set_diceKept (alter negb i (diceKept s)) s
    | None => s
    end
  else s.

(** [openFinalScoresOverlay] *)
Definition openFinalScoresOverlay (s : state) : state :=
  if negb (overlayActive s) then
    match mapM (λ p, scoreboards s !! p) (seq 0 (numPlayers s)) with
    | Some sbs =>
        set_overlayActive true
          (set_overlayContent (FinalScores (calculateFinalScore <$> sbs)) s)
    | None => s
    end
  else s.

(** [gameLoop], as far as it changes the state. *)
Definition gameLoop (s : state) : state :=
  if negb (diceFacesLoaded s) || negb (cupFramesLoaded s) then s
  else match gameMode s with
       | gameOver => openFinalScoresOverlay s
       | _ => s
       end.

Definition restartGame (s : state) : state :=
  let s := set_overlayActive false s in
  let s := set_gameMode promptPlayers s in
  showPlayerPromptOverlay s.

(** What the page does on an event. *)
Definition handle (e : event) (s : state) : state :=
  match e with
  | Keydown k => on_keydown k s
  | Mousedown hit => on_mousedown hit s
  | AnimationFrame => resumeCupShake s
  | GameLoop => gameLoop s
  | DiceSpriteLoad => set_diceFacesLoaded true s
  | CupSpriteLoad => set_cupFramesLoaded true s
  | SetNumberOfPlayers n => setNumberOfPlayers n s
  | SelectScoreCategory cat forceZero => selectScoreCategory cat forceZero s
  | RestartGame => restartGame s
  end.

(** A run of the page: the events handled one after the other. *)
Definition run (es : list event) (s : state) : state := foldl (λ s e, handle e s) s es.

End Engine.

(** ** Vocabulary of the statements *)

(** A roll: five dice, each showing a face from 1 to 6. *)
Definition valid_dice (vals : list Z) : Prop :=
  length vals = NUM_DICE ∧ Forall (λ v, 1 ≤ v ≤ 6) vals.

(** How often a face occurs in a roll. *)
Definition multiplicity (v : Z) (vals : list Z) : nat := length (filter (λ x, x = v) vals).

(** The set of distinct values of a roll. *)
Definition distinct (vals : list Z) : gset Z := list_to_set vals.

(** Two distinct values, one occurring twice and the other three times. *)
Definition two_and_three (vals : list Z) : Prop :=
  ∃ a b, a ≠ b ∧ distinct vals = {[a; b]} ∧ multiplicity a vals = 2%nat
         ∧ multiplicity b vals = 3%nat.

(** Some value occurs five times. *)
Definition five_alike (vals : list Z) : Prop := ∃ v, multiplicity v vals = 5%nat.

Definition faces : list Z := [1; 2; 3; 4; 5; 6].

(** All rolls of [n] dice. *)
Fixpoint rolls (n : nat) : list (list Z) :=
  match n with
  | O => [[]]
  | S n' => v ← faces; (v ::.) <$> rolls n'
  end.

(** Boolean forms of [two_and_three] and [five_alike], searching the six
    faces. *)
Definition two_and_three_b (vals : list Z) : bool :=
  existsb (λ a, existsb (λ b,
    bool_decide (a ≠ b) && bool_decide (multiplicity a vals = 2%nat)
    && bool_decide (multiplicity b vals = 3%nat)
    && forallb (λ v, bool_decide (v = a ∨ v = b)) vals) faces) faces.

Definition five_alike_b (vals : list Z) : bool :=
  existsb (λ v, bool_decide (multiplicity v vals = 5%nat)) faces.

(** The scores of the categories among [keys] that are set on a
    scoreboard; unset categories have none. *)
Definition set_entries (sb : scoreboard) (keys : list category) : list Z :=
  omap (sb_get sb) keys.

Definition sum_of (l : list Z) : Z := foldr Z.add 0 l.

(** The score an entry contributes to a subtotal. *)
Definition contribution (entry : option Z) : Z := default 0 entry.

(** The events that commit a category, and their number in a run. *)
Definition is_commit (e : event) : bool :=
  match e with
  | SelectScoreCategory _ _ => true
  | _ => false
  end.

Definition commits (es : list event) : nat := length (List.filter is_commit es).

(** Events within one game: anything but choosing the number of players
    and restarting. *)
Definition in_game (e : event) : Prop :=
  match e with
  | SetNumberOfPlayers _ | RestartGame => False
  | _ => True
  end.

(** A complete reroll: the key press and the animation frames the cup shake
    waits for. *)
Definition reroll_events : list event :=
  Keydown "r" :: replicate (stepsIn + shakeFrames + stepsOut) AnimationFrame.

(** The state at the start of a player's turn, given the number of
    [Math.random] calls made before it. *)
Definition fresh_turn (random : nat → Q) (before : nat) (s : state) : Prop :=
  diceKept s = [false; false; false; false; false]
  ∧ rollsLeft s = 2
  ∧ diceValues s = [roll_face random before; roll_face random (1 + before);
                    roll_face random (2 + before); roll_face random (3 + before);
                    roll_face random (4 + before)]
  ∧ draws s = (5 + before)%nat
  ∧ Forall (λ v, 1 ≤ v ≤ 6) (diceValues s)
  ∧ turnEnded s = false
  ∧ gameMode s = rolling.

(** The number of dice before die [i] that are not kept. *)
Definition unkept_before (s : state) (i : nat) : nat :=
  length (filter (λ j, diceKept s !! j ≠ Some true) (seq 0 i)).

(** What a roll does to the dice: the kept flags stay, a kept die keeps its
    value, and every die that is not kept is given the face of a result of
    [Math.random] of its own, a face from 1 to 6: the results are taken in
    the order of the dice, one for each die that is not kept, starting with
    the first result not used before the roll. *)
Definition only_unkept_rerolled (random : nat → Q) (s s' : state) : Prop :=
  diceKept s' = diceKept s
  ∧ length (diceValues s') = length (diceValues s)
  ∧ draws s' = (draws s + unkept_before s NUM_DICE)%nat
  ∧ ∀ i, (i < NUM_DICE)%nat →
      (diceKept s !! i = Some true → diceValues s' !! i = diceValues s !! i)
      ∧ (diceKept s !! i = Some false →
         diceValues s' !! i = Some (roll_face random (draws s + unkept_before s i))
         ∧ 1 ≤ roll_face random (draws s + unkept_before s i) ≤ 6).

(** The kept flags and the values of the kept dice of [s] are those of
    [s']. *)
Definition kept_dice_stay (s s' : state) : Prop :=
  diceKept s' = diceKept s
  ∧ ∀ i, diceKept s !! i = Some true → diceValues s' !! i = diceValues s !! i.

(** A sample sequence of [Math.random] results. *)
Definition sample_random (n : nat) : Q := if Nat.even n then 1 # 6 else 5 # 6.

(** The number of turns completed in a game of [N] players, counted from
    the round and the player whose turn it is. *)
Definition turns_done (N : nat) (s : state) : nat :=
  ((currentRound s - 1) * N + currentPlayer s)%nat.

(** What holds throughout a game of [N] players. *)
Definition game_inv (N : nat) (s : state) : Prop :=
  numPlayers s = N
  ∧ length (scoreboards s) = N
  ∧ (currentPlayer s < N)%nat
  ∧ (1 ≤ currentRound s)%nat
  ∧ (gameMode s = gameOver ↔ (MAX_TURNS < currentRound s)%nat).

(** The entry of a category on a player's scoreboard, if there is such a
    player: [Some None] is an entry that is still [null]. *)
Definition entry (s : state) (player : nat) (cat : category) : option (option Z) :=
  (λ sb, sb_get sb cat) <$> scoreboards s !! player.

(** A one-player game in which the player has taken the score of the first
    roll, 6, for the twos. *)
Definition twos_taken : state :=
  run sample_random
    [SetNumberOfPlayers 1; Keydown "e"; SelectScoreCategory Twos false] initial_state.

(** A one-player game at the start of the first turn, with the second die
    kept. *)
Definition second_die_kept : state :=
  run sample_random [SetNumberOfPlayers 1; Mousedown (λ i, Nat.eqb i 1)] initial_state.

(** A one-player game at the start of the first turn, both sprite sheets
    loaded, with the second die kept. *)
Definition second_die_kept_loaded : state :=
  run sample_random
    [DiceSpriteLoad; CupSpriteLoad; SetNumberOfPlayers 1; Mousedown (λ i, Nat.eqb i 1)]
    initial_state.

(** A one-player game started before the sprite sheets have loaded, at the
    start of the first turn. *)
Definition started_unloaded : state :=
  run sample_random [SetNumberOfPlayers 1] initial_state.

(** What holds of the turn state in every state the page can reach: there
    are five dice and five kept flags, and [isAnimating] is set while a
    call of [animateCupShake] is suspended. *)
Definition well_formed (s : state) : Prop :=
  length (diceValues s) = NUM_DICE
  ∧ length (diceKept s) = NUM_DICE
  ∧ (isAnimating s = false → shake s = None).

(** Whether a row carries the commit buttons of a category. *)
Definition offers (cat : category) (r : row) : bool :=
  match r with
  | Offer c _ => bool_decide (c = cat)
  | Used _ _ => false
  end.

(** Whether the page offers an event to the player.  Keys, clicks on the
    canvas and timers always arrive.  A button can be pressed when the
    overlay is active and its content has the button: the prompt has the
    nine player-count buttons, the score table the two commit buttons of
    each offered row, the final table the restart button. *)
Definition offered (e : event) (s : state) : bool :=
  match e with
  | SetNumberOfPlayers n =>
      overlayActive s
      && match overlayContent s with
         | PlayerPrompt => bool_decide (1 ≤ n ≤ 9)%nat
         | _ => false
         end
  | SelectScoreCategory cat _ =>
      overlayActive s
      && match overlayContent s with
         | ScoreTable _ _ rows => existsb (offers cat) rows
         | _ => false
         end
  | RestartGame =>
      overlayActive s
      && match overlayContent s with
         | FinalScores _ => true
         | _ => false
         end
  | _ => true
  end.

(** A run in which only offered events take effect. *)
Definition offered_run (random : nat → Q) (es : list event) (s : state) : state :=
  foldl (λ s e, if offered e s then handle random e s else s) s es.

(** While the overlay is active, a score table it shows is the table of the
    current player's scoreboard as it is now. *)
Definition table_current (s : state) : Prop :=
  overlayActive s = true →
  ∀ player dice rows, overlayContent s = ScoreTable player dice rows →
    player = currentPlayer s
    ∧ ∃ sb, scoreboards s !! player = Some sb
            ∧ rows = score_row (calculatePossibleScores dice) sb <$> catMap.

(** The keys of an object are strictly ascending, and all above [lo]. *)
Fixpoint keys_above (lo : Z) (o : Js.int_obj) : Prop :=
  match o with
  | [] => True
  | (k, _) :: o' => lo < k ∧ keys_above k o'
  end.

Definition ascending (o : Js.int_obj) : Prop :=
  match o with
  | [] => True
  | (k, _) :: o' => keys_above k o'
  end.

(** The animation frames of a run, and the events a player or the render
    timer can cause while the page is rolling. *)
Definition is_frame (e : event) : bool :=
  match e with
  | AnimationFrame => true
  | _ => false
  end.

Definition frames (es : list event) : nat := length (List.filter is_frame es).

Definition is_input (e : event) : Prop :=
  match e with
  | Keydown _ | Mousedown _ | GameLoop => True
  | _ => False
  end.

(** Every die shows a face. *)
Definition dice_ready (s : state) : Prop := Forall (λ v, 1 ≤ v ≤ 6) (diceValues s).

(** Both sprite sheets have been sliced, and there are five dice, each
    showing a face: what [drawRollingSceneWithCup] needs to draw all of
    them and the cup. *)
Definition scene_drawable (s : state) : Prop :=
  diceFacesLoaded s = true ∧ cupFramesLoaded s = true
  ∧ length (diceValues s) = NUM_DICE ∧ dice_ready s.

(** Events that arrive whether or not the overlay is shown, the sprite
    sheets' [onload] among them. *)
Definition is_arrival (e : event) : Prop :=
  match e with
  | Keydown _ | Mousedown _ | GameLoop | AnimationFrame | DiceSpriteLoad | CupSpriteLoad => True
  | _ => False
  end.

(** The page before the first game: the dice are the zeros of the
    declaration, no cup shake is suspended, and there are no scoreboards. *)
Definition not_started (s : state) : Prop :=
  diceValues s = [0; 0; 0; 0; 0] ∧ shake s = None ∧ gameMode s = promptPlayers
  ∧ scoreboards s = [].

(** What a player may try, and what arrives, after a cup shake has ended
    by an exception. *)
Definition stuck_inputs : list event :=
  [Keydown "r"; Mousedown (λ _, true); DiceSpriteLoad; CupSpriteLoad; GameLoop;
   AnimationFrame; Keydown "e"; Keydown "r"; AnimationFrame].

(** A cup shake with key presses, a click and a render tick in between its
    first 65 frames. *)
Definition busy_shake : list event :=
  replicate 30 AnimationFrame
  ++ [Keydown "e"; Mousedown (λ _, true); Keydown "r"; GameLoop]
  ++ replicate 35 AnimationFrame.

(** While the overlay is active, a score table it shows is that of the
    current player for the dice as they are, the page is selecting a score
    and no cup shake is suspended. *)
Definition table_live (s : state) : Prop :=
  overlayActive s = true →
  ∀ player dice rows, overlayContent s = ScoreTable player dice rows →
    player = currentPlayer s ∧ dice = diceValues s
    ∧ gameMode s = scoreSelection ∧ shake s = None
    ∧ ∃ sb, scoreboards s !! player = Some sb
            ∧ rows = score_row (calculatePossibleScores dice) sb <$> catMap.

(** The number of categories that are set on a scoreboard. *)
Definition filled (sb : scoreboard) : nat := length (set_entries sb catMap).

(** Every player has as many categories set as turns played: one per
    completed round, and one more for the players before the current one. *)
Definition turns_filled (s : state) : Prop :=
  ∀ q sb, scoreboards s !! q = Some sb →
    filled sb = (currentRound s - 1 + if bool_decide (q < currentPlayer s)%nat then 1 else 0)%nat.

(** ** Proof automation *)

(** Reads one entry of the score object built by [calculatePossibleScores]. *)
Ltac lookup_score :=
  unfold calculatePossibleScores; cbv zeta;
  rewrite ?lookup_insert_eq; repeat (rewrite lookup_insert_ne by done);
  by rewrite ?lookup_insert_eq.

(** ** JavaScript primitives: basic facts *)

Lemma reduce_add_acc (arr : list Z) (acc : Z) :
  foldl (λ a b, a + b) acc arr = acc + Js.reduce_add arr.
Proof.
  unfold Js.reduce_add. revert acc.
  induction arr as [|x arr IH]; intros acc; simpl; [lia|].
  rewrite (IH (acc + x)), (IH (0 + x)). lia.
Qed.

Lemma reduce_add_cons (x : Z) (arr : list Z) :
  Js.reduce_add (x :: arr) = x + Js.reduce_add arr.
Proof. unfold Js.reduce_add at 1. simpl. apply reduce_add_acc. Qed.

Lemma reduce_add_nonneg (arr : list Z) :
  Forall (λ v, 0 ≤ v) arr → 0 ≤ Js.reduce_add arr.
Proof.
  induction 1 as [|x arr Hx _ IH]; [done|].
  rewrite reduce_add_cons. lia.
Qed.

Lemma sort_insert_perm (x : Z) (arr : list Z) : Js.sort_insert x arr ≡ₚ x :: arr.
Proof.
  induction arr as [|y arr IH]; simpl; [done|].
  destruct (Js.sort_le x y); [done|].
  rewrite IH. apply Permutation_swap.
Qed.

Lemma sort_perm (arr : list Z) : Js.sort arr ≡ₚ arr.
Proof.
  induction arr as [|x arr IH]; simpl; [done|].
  by rewrite sort_insert_perm, IH.
Qed.

Lemma includes_true (arr : list Z) (x : Z) : Js.includes arr x = true ↔ x ∈ arr.
Proof. unfold Js.includes. by rewrite bool_decide_eq_true. Qed.

Lemma set_spread_acc (arr seen : list Z) :
  let out := foldl (λ seen v, if Js.includes seen v then seen else seen ++ [v]) seen arr in
  (NoDup seen → NoDup out) ∧ ∀ x, x ∈ out ↔ x ∈ seen ∨ x ∈ arr.
Proof.
  revert seen. induction arr as [|v arr IH]; intros seen; simpl.
  - split; [done|]. intros x. rewrite elem_of_nil. tauto.
  - destruct (Js.includes seen v) eqn:Hv.
    + apply includes_true in Hv. destruct (IH seen) as [Hnd Hin].
      split; [done|]. intros x. rewrite Hin, elem_of_cons.
      split; [tauto|]. intros [?|[->|?]]; tauto.
    + assert (v ∉ seen) as Hv' by (rewrite <- includes_true; congruence).
      destruct (IH (seen ++ [v])) as [Hnd Hin]. split.
      * intros Hseen. apply Hnd. apply NoDup_app. split_and!; [done| |apply NoDup_singleton].
        intros x Hx ->%list_elem_of_singleton. done.
      * intros x. rewrite Hin, elem_of_app, list_elem_of_singleton, elem_of_cons. tauto.
Qed.

Lemma set_spread_NoDup (arr : list Z) : NoDup (Js.set_spread arr).
Proof. apply (set_spread_acc arr []). constructor. Qed.

Lemma elem_of_set_spread (arr : list Z) (x : Z) : x ∈ Js.set_spread arr ↔ x ∈ arr.
Proof.
  destruct (set_spread_acc arr []) as [_ H]. unfold Js.set_spread.
  rewrite H, elem_of_nil. tauto.
Qed.

(** ** Scoring calculator: the entries of the score object *)

Section PossibleScores.

Variable vals : list Z.

Lemma possible_upper :
  calculatePossibleScores vals !! "ones"%string = Some (sumIfMatch vals 1)
  ∧ calculatePossibleScores vals !! "twos"%string = Some (sumIfMatch vals 2)
  ∧ calculatePossibleScores vals !! "threes"%string = Some (sumIfMatch vals 3)
  ∧ calculatePossibleScores vals !! "fours"%string = Some (sumIfMatch vals 4)
  ∧ calculatePossibleScores vals !! "fives"%string = Some (sumIfMatch vals 5)
  ∧ calculatePossibleScores vals !! "sixes"%string = Some (sumIfMatch vals 6).
Proof. split_and!; lookup_score. Qed.

Lemma possible_three_of_a_kind :
  calculatePossibleScores vals !! "three_of_a_kind"%string
  = Some (if existsb (λ c, 3 <=? c) (Js.values (count_faces vals)) then sumAll vals else 0).
Proof. lookup_score. Qed.

Lemma possible_four_of_a_kind :
  calculatePossibleScores vals !! "four_of_a_kind"%string
  = Some (if existsb (λ c, 4 <=? c) (Js.values (count_faces vals)) then sumAll vals else 0).
Proof. lookup_score. Qed.

Lemma possible_full_house :
  calculatePossibleScores vals !! "full_house"%string = Some (if isFullHouse (count_faces vals) then 25 else 0).
Proof. lookup_score. Qed.

Lemma possible_small_straight :
  calculatePossibleScores vals !! "small_straight"%string
  = Some (if hasSmall (Js.sort (Js.set_spread vals)) then 30 else 0).
Proof. lookup_score. Qed.

Lemma possible_large_straight :
  calculatePossibleScores vals !! "large_straight"%string
  = Some (if hasLarge (Js.sort (Js.set_spread vals)) then 40 else 0).
Proof. lookup_score. Qed.

Lemma possible_yahtzee :
  calculatePossibleScores vals !! "yahtzee"%string
  = Some (if existsb (λ c, c =? 5) (Js.values (count_faces vals)) then 50 else 0).
Proof. lookup_score. Qed.

Lemma possible_chance : calculatePossibleScores vals !! "chance"%string = Some (sumAll vals).
Proof. lookup_score. Qed.

Lemma possible_dom : dom (calculatePossibleScores vals) = list_to_set (key <$> catMap).
Proof.
  unfold calculatePossibleScores. cbv zeta.
  rewrite !dom_insert_L, dom_empty_L. simpl. set_solver.
Qed.

Lemma possible_lookup_key (cat : category) : is_Some (calculatePossibleScores vals !! key cat).
Proof.
  apply elem_of_dom. rewrite possible_dom. apply elem_of_list_to_set.
  apply list_elem_of_fmap_2. destruct cat; unfold catMap; set_solver.
Qed.

End PossibleScores.

(** ** Upper section and chance *)

Lemma sumIfMatch_cons (x : Z) (vals : list Z) (num : Z) :
  sumIfMatch (x :: vals) num = (if decide (x = num) then x else 0) + sumIfMatch vals num.
Proof.
  unfold sumIfMatch. rewrite filter_cons.
  case_decide; [apply reduce_add_cons | lia].
Qed.

Lemma sumIfMatch_nonneg (vals : list Z) (num : Z) :
  Forall (λ v, 0 ≤ v) vals → 0 ≤ sumIfMatch vals num.
Proof.
  induction 1 as [|x vals Hx _ IH]; [done|].
  rewrite sumIfMatch_cons. case_decide; lia.
Qed.

Lemma upper_sum_sumAll (vals : list Z) :
  Forall (λ v, 1 ≤ v ≤ 6) vals →
  sumIfMatch vals 1 + sumIfMatch vals 2 + sumIfMatch vals 3
  + sumIfMatch vals 4 + sumIfMatch vals 5 + sumIfMatch vals 6 = sumAll vals.
Proof.
  induction 1 as [|x vals Hx _ IH]; [done|].
  unfold sumAll in *. rewrite reduce_add_cons, <- IH, !sumIfMatch_cons.
  repeat case_decide; lia.
Qed.

Lemma valid_dice_nonneg (vals : list Z) : valid_dice vals → Forall (λ v, 0 ≤ v) vals.
Proof. intros [_ H]. eapply Forall_impl; [exact H|]. simpl. lia. Qed.

Lemma valid_dice_five (vals : list Z) :
  valid_dice vals → ∃ a b c d e, vals = [a; b; c; d; e].
Proof.
  intros [Hlen _]. unfold NUM_DICE in Hlen.
  do 5 (destruct vals as [|? vals]; [done|]). destruct vals; [|done]. eauto 6.
Qed.

(** C10: for a roll of five dice with faces 1 to 6, the six upper-section
    entries of the score object add up to its chance entry. *)
Theorem upper_scores_sum_to_chance (vals : list Z) :
  valid_dice vals →
  ∃ s1 s2 s3 s4 s5 s6 ch,
    calculatePossibleScores vals !! "ones"%string = Some s1
    ∧ calculatePossibleScores vals !! "twos"%string = Some s2
    ∧ calculatePossibleScores vals !! "threes"%string = Some s3
    ∧ calculatePossibleScores vals !! "fours"%string = Some s4
    ∧ calculatePossibleScores vals !! "fives"%string = Some s5
    ∧ calculatePossibleScores vals !! "sixes"%string = Some s6
    ∧ calculatePossibleScores vals !! "chance"%string = Some ch
    ∧ s1 + s2 + s3 + s4 + s5 + s6 = ch
    ∧ ch = sum_of vals.
Proof.
  intros [_ Hfaces].
  destruct (possible_upper vals) as (H1 & H2 & H3 & H4 & H5 & H6).
  do 7 eexists. split_and!; try eassumption.
  - apply possible_chance.
  - by apply upper_sum_sumAll.
  - clear. unfold sumAll. induction vals as [|x vals IH]; [done|].
    rewrite reduce_add_cons, IH. done.
Qed.

Lemma upper_scores_sum_to_chance_witness :
  valid_dice [3; 1; 3; 6; 5]
  ∧ ∃ s1 s2 s3 s4 s5 s6 ch,
      calculatePossibleScores [3; 1; 3; 6; 5] !! "ones"%string = Some s1
      ∧ calculatePossibleScores [3; 1; 3; 6; 5] !! "twos"%string = Some s2
      ∧ calculatePossibleScores [3; 1; 3; 6; 5] !! "threes"%string = Some s3
      ∧ calculatePossibleScores [3; 1; 3; 6; 5] !! "fours"%string = Some s4
      ∧ calculatePossibleScores [3; 1; 3; 6; 5] !! "fives"%string = Some s5
      ∧ calculatePossibleScores [3; 1; 3; 6; 5] !! "sixes"%string = Some s6
      ∧ calculatePossibleScores [3; 1; 3; 6; 5] !! "chance"%string = Some ch
      ∧ s1 + s2 + s3 + s4 + s5 + s6 = ch
      ∧ ch = sum_of [3; 1; 3; 6; 5].
Proof.
  assert (valid_dice [3; 1; 3; 6; 5]) as Hvalid
    by (split; [reflexivity | repeat constructor; lia]).
  split; [exact Hvalid | exact (upper_scores_sum_to_chance [3; 1; 3; 6; 5] Hvalid)].
Defined.

(** C7: for a roll of five dice with faces 1 to 6 the score object has
    exactly the thirteen category keys, every entry is a non-negative
    integer, and the chance entry is the sum of the five dice. *)
Theorem possible_scores_complete_nonneg (vals : list Z) :
  valid_dice vals →
  dom (calculatePossibleScores vals) = list_to_set (key <$> catMap)
  ∧ (∀ cat, ∃ v, calculatePossibleScores vals !! key cat = Some v ∧ 0 ≤ v)
  ∧ ∃ a b c d e, vals = [a; b; c; d; e]
      ∧ calculatePossibleScores vals !! key Chance = Some (a + b + c + d + e).
Proof.
  intros Hvalid. pose proof (valid_dice_nonneg _ Hvalid) as Hnn.
  assert (0 ≤ sumAll vals) as Hsum by by apply reduce_add_nonneg.
  split_and!.
  - apply possible_dom.
  - intros cat.
    destruct cat; cbn [key]; (eexists; split; [lookup_score|]);
      try (by apply sumIfMatch_nonneg); try done;
      match goal with |- context [if ?b then _ else _] => destruct b end; lia.
  - destruct (valid_dice_five _ Hvalid) as (a & b & c & d & e & ->).
    exists a, b, c, d, e. split; [done|].
    simpl. rewrite possible_chance. unfold sumAll, Js.reduce_add. simpl. done.
Qed.

Lemma possible_scores_complete_nonneg_witness :
  valid_dice [2; 2; 3; 3; 3]
  ∧ dom (calculatePossibleScores [2; 2; 3; 3; 3]) = list_to_set (key <$> catMap)
  ∧ (∀ cat, ∃ v, calculatePossibleScores [2; 2; 3; 3; 3] !! key cat = Some v ∧ 0 ≤ v)
  ∧ ∃ a b c d e, [2; 2; 3; 3; 3] = [a; b; c; d; e]
      ∧ calculatePossibleScores [2; 2; 3; 3; 3] !! key Chance = Some (a + b + c + d + e).
Proof.
  assert (valid_dice [2; 2; 3; 3; 3]) as Hvalid
    by (split; [reflexivity | repeat constructor; lia]).
  split; [exact Hvalid | exact (possible_scores_complete_nonneg [2; 2; 3; 3; 3] Hvalid)].
Defined.

(** ** Straights *)

(** The sorted array of unique values has no duplicates and holds exactly
    the values of the roll. *)
Lemma uniqueVals_NoDup (vals : list Z) : NoDup (Js.sort (Js.set_spread vals)).
Proof. rewrite sort_perm. apply set_spread_NoDup. Qed.

Lemma elem_of_uniqueVals (vals : list Z) (x : Z) :
  x ∈ Js.sort (Js.set_spread vals) ↔ x ∈ distinct vals.
Proof. unfold distinct. by rewrite sort_perm, elem_of_set_spread, elem_of_list_to_set. Qed.

Lemma every_includes (uniqueVals seq : list Z) :
  forallb (λ x, Js.includes uniqueVals x) seq = true ↔ ∀ x, x ∈ seq → x ∈ uniqueVals.
Proof.
  rewrite forallb_forall. setoid_rewrite includes_true.
  by setoid_rewrite list_elem_of_In.
Qed.

(** A duplicate-free sequence all of whose elements occur in the unique
    values, and which is as long as they are, has the same elements. *)
Lemma same_length_every (uniqueVals seq : list Z) :
  NoDup uniqueVals → NoDup seq →
  length seq = length uniqueVals ∧ (∀ x, x ∈ seq → x ∈ uniqueVals)
  ↔ ∀ x, x ∈ uniqueVals ↔ x ∈ seq.
Proof.
  intros Hu Hs. split.
  - intros [Hlen Hsub] x.
    assert (seq ≡ₚ uniqueVals) as ->; [|done].
    apply submseteq_length_Permutation; [by apply NoDup_submseteq | lia].
  - intros Heq. assert (seq ≡ₚ uniqueVals) as Hp.
    { apply NoDup_Permutation; [done..|]. intros x. by rewrite Heq. }
    split; [by rewrite Hp|]. intros x. by rewrite Heq.
Qed.

Lemma five_values_set (X : gset Z) (a b c d e : Z) :
  (∀ x, x ∈ X ↔ x ∈ [a; b; c; d; e]) ↔ X = {[a; b; c; d; e]}.
Proof.
  rewrite set_eq. apply forall_proper; intros x.
  rewrite !elem_of_cons, elem_of_nil, !elem_of_union, !elem_of_singleton. tauto.
Qed.

Lemma hasSmall_true (vals : list Z) :
  hasSmall (Js.sort (Js.set_spread vals)) = true
  ↔ {[1; 2; 3; 4]} ⊆ distinct vals ∨ {[2; 3; 4; 5]} ⊆ distinct vals
    ∨ {[3; 4; 5; 6]} ⊆ distinct vals.
Proof.
  unfold hasSmall, smallStraights. cbn [existsb].
  rewrite !orb_true_iff, !every_includes.
  setoid_rewrite elem_of_uniqueVals. set_solver.
Qed.

Lemma hasLarge_true (vals : list Z) :
  hasLarge (Js.sort (Js.set_spread vals)) = true
  ↔ distinct vals = {[1; 2; 3; 4; 5]} ∨ distinct vals = {[2; 3; 4; 5; 6]}.
Proof.
  unfold hasLarge, largeStraights. cbn [existsb].
  rewrite !orb_true_iff, !andb_true_iff, !bool_decide_eq_true, !every_includes.
  pose proof (uniqueVals_NoDup vals) as Hnd.
  assert (NoDup [1; 2; 3; 4; 5]) as Hlow by (apply (bool_decide_unpack _); reflexivity).
  assert (NoDup [2; 3; 4; 5; 6]) as Hhigh by (apply (bool_decide_unpack _); reflexivity).
  rewrite (same_length_every _ [1; 2; 3; 4; 5] Hnd Hlow).
  rewrite (same_length_every _ [2; 3; 4; 5; 6] Hnd Hhigh).
  setoid_rewrite elem_of_uniqueVals.
  rewrite !five_values_set. intuition discriminate.
Qed.

(** C4: for every roll, and so for every roll of five dice with faces 1 to 6,
    the large-straight entry is 40 exactly when the set of distinct dice
    values is {1,2,3,4,5} or {2,3,4,5,6}, and the small-straight entry
    is 30 exactly when that set includes {1,2,3,4}, {2,3,4,5} or {3,4,5,6};
    otherwise the entries are 0. *)
Theorem straights_scores (vals : list Z) :
  (calculatePossibleScores vals !! "large_straight"%string = Some 40
   ↔ distinct vals = {[1; 2; 3; 4; 5]} ∨ distinct vals = {[2; 3; 4; 5; 6]})
  ∧ (calculatePossibleScores vals !! "large_straight"%string = Some 40
     ∨ calculatePossibleScores vals !! "large_straight"%string = Some 0)
  ∧ (calculatePossibleScores vals !! "small_straight"%string = Some 30
     ↔ {[1; 2; 3; 4]} ⊆ distinct vals ∨ {[2; 3; 4; 5]} ⊆ distinct vals
       ∨ {[3; 4; 5; 6]} ⊆ distinct vals)
  ∧ (calculatePossibleScores vals !! "small_straight"%string = Some 30
     ∨ calculatePossibleScores vals !! "small_straight"%string = Some 0).
Proof.
  rewrite possible_large_straight, possible_small_straight.
  rewrite <- hasLarge_true, <- hasSmall_true.
  destruct (hasLarge _), (hasSmall _); naive_solver.
Qed.

(** ** Full house and yahtzee *)

Lemma elem_of_faces (v : Z) : v ∈ faces ↔ 1 ≤ v ≤ 6.
Proof. unfold faces. rewrite !elem_of_cons, elem_of_nil. lia. Qed.

Lemma elem_of_rolls (n : nat) (vals : list Z) :
  length vals = n → Forall (λ v, 1 ≤ v ≤ 6) vals → vals ∈ rolls n.
Proof.
  revert vals. induction n as [|n IH]; intros [|x vals] Hlen Hfaces; try done.
  - simpl. set_solver.
  - apply Forall_cons in Hfaces as [Hx Hfaces]. cbn [rolls].
    apply list_elem_of_bind. exists x. split; [|by apply elem_of_faces].
    apply list_elem_of_fmap_2. apply IH; [|done]. by injection Hlen.
Qed.

(** A boolean property checked on all 7776 rolls holds of every valid
    roll. *)
Lemma all_rolls (P : list Z → bool) :
  forallb P (rolls NUM_DICE) = true → ∀ vals, valid_dice vals → P vals = true.
Proof.
  intros Hall vals [Hlen Hfaces]. rewrite forallb_forall in Hall.
  apply Hall, list_elem_of_In. by apply elem_of_rolls.
Qed.

Lemma multiplicity_pos_elem_of (v : Z) (vals : list Z) :
  (0 < multiplicity v vals)%nat → v ∈ vals.
Proof.
  unfold multiplicity. intros Hpos.
  destruct (filter (λ x, x = v) vals) as [|y l] eqn:Hf; [simpl in Hpos; lia|].
  assert (y ∈ filter (λ x, x = v) vals) as Hy by (rewrite Hf; left).
  apply list_elem_of_filter in Hy as [-> ?]. done.
Qed.

Lemma two_and_three_b_true (vals : list Z) :
  valid_dice vals → two_and_three_b vals = true ↔ two_and_three vals.
Proof.
  intros [_ Hfaces]. rewrite Forall_forall in Hfaces.
  unfold two_and_three_b, two_and_three, distinct. split.
  - intros (a & _ & (b & _ & H)%existsb_exists)%existsb_exists.
    rewrite !andb_true_iff, !bool_decide_eq_true, forallb_forall in H.
    destruct H as (((Hne & Ha) & Hb) & Hall). exists a, b. split_and!; try done.
    apply set_eq. intros v. rewrite elem_of_list_to_set. split.
    + intros Hv%list_elem_of_In%Hall%bool_decide_eq_true. set_solver.
    + assert (a ∈ vals) by (apply multiplicity_pos_elem_of; lia).
      assert (b ∈ vals) by (apply multiplicity_pos_elem_of; lia). set_solver.
  - intros (a & b & Hne & Hset & Ha & Hb).
    assert (a ∈ vals) as Hain by (apply multiplicity_pos_elem_of; lia).
    assert (b ∈ vals) as Hbin by (apply multiplicity_pos_elem_of; lia).
    apply existsb_exists. exists a. split; [by apply list_elem_of_In, elem_of_faces, Hfaces|].
    apply existsb_exists. exists b. split; [by apply list_elem_of_In, elem_of_faces, Hfaces|].
    rewrite !andb_true_iff, !bool_decide_eq_true, forallb_forall. split_and!; try done.
    intros v Hv%list_elem_of_In. apply bool_decide_eq_true.
    assert (v ∈ (list_to_set vals : gset Z)) as Hv' by by apply elem_of_list_to_set.
    rewrite Hset in Hv'. set_solver.
Qed.

Lemma five_alike_b_true (vals : list Z) :
  valid_dice vals → five_alike_b vals = true ↔ five_alike vals.
Proof.
  intros [_ Hfaces]. rewrite Forall_forall in Hfaces.
  unfold five_alike_b, five_alike. split.
  - intros (v & _ & H%bool_decide_eq_true)%existsb_exists. eauto.
  - intros (v & Hv). apply existsb_exists. exists v.
    split; [|by apply bool_decide_eq_true].
    apply list_elem_of_In, elem_of_faces, Hfaces, multiplicity_pos_elem_of. lia.
Qed.

(** On every roll the full-house test of the source agrees with
    [two_and_three_b], and its yahtzee test with [five_alike_b]. *)
Lemma isFullHouse_checked :
  forallb (λ vals, bool_decide (isFullHouse (count_faces vals) = two_and_three_b vals))
    (rolls NUM_DICE) = true.
Proof. vm_compute. reflexivity. Qed.

Lemma has5_checked :
  forallb (λ vals, bool_decide
      (existsb (λ c, c =? 5) (Js.values (count_faces vals)) = five_alike_b vals))
    (rolls NUM_DICE) = true.
Proof. vm_compute. reflexivity. Qed.

Lemma isFullHouse_true (vals : list Z) :
  valid_dice vals → isFullHouse (count_faces vals) = true ↔ two_and_three vals.
Proof.
  intros Hvalid. rewrite <- two_and_three_b_true by done.
  pose proof (all_rolls _ isFullHouse_checked vals Hvalid) as ->%bool_decide_eq_true. done.
Qed.

Lemma has5_true (vals : list Z) :
  valid_dice vals →
  existsb (λ c, c =? 5) (Js.values (count_faces vals)) = true ↔ five_alike vals.
Proof.
  intros Hvalid. rewrite <- five_alike_b_true by done.
  pose proof (all_rolls _ has5_checked vals Hvalid) as ->%bool_decide_eq_true. done.
Qed.

(** C3: for a roll of five dice with faces 1 to 6, the full-house entry is
    25 exactly when the roll has two distinct values, one twice and one three
    times, and 0 otherwise; the yahtzee entry is 50 exactly when some value
    occurs five times, and 0 otherwise; five identical dice score 0 for full
    house and 50 for yahtzee. *)
Theorem full_house_and_yahtzee_scores (vals : list Z) :
  valid_dice vals →
  (calculatePossibleScores vals !! "full_house"%string = Some 25 ↔ two_and_three vals)
  ∧ (¬ two_and_three vals → calculatePossibleScores vals !! "full_house"%string = Some 0)
  ∧ (calculatePossibleScores vals !! "yahtzee"%string = Some 50 ↔ five_alike vals)
  ∧ (¬ five_alike vals → calculatePossibleScores vals !! "yahtzee"%string = Some 0)
  ∧ (∀ v, vals = [v; v; v; v; v] →
       calculatePossibleScores vals !! "full_house"%string = Some 0
       ∧ calculatePossibleScores vals !! "yahtzee"%string = Some 50).
Proof.
  intros Hvalid. rewrite possible_full_house, possible_yahtzee.
  pose proof (isFullHouse_true vals Hvalid) as Hfh.
  pose proof (has5_true vals Hvalid) as Hy.
  assert (∀ v, vals = [v; v; v; v; v] → five_alike vals ∧ ¬ two_and_three vals) as Hfive.
  { intros v ->. split.
    - exists v. unfold multiplicity. rewrite !filter_cons_True by done. done.
    - intros (a & b & Hne & _ & Ha & Hb). unfold multiplicity in Ha, Hb.
      destruct (decide (v = b)) as [->|Hvb].
      + rewrite !filter_cons_True in Hb by done. done.
      + rewrite !filter_cons_False in Hb by done. done. }
  destruct (isFullHouse _), (existsb _ _); split_and!; try naive_solver.
Qed.

Lemma full_house_and_yahtzee_scores_witness :
  valid_dice [4; 4; 4; 4; 4]
  ∧ (calculatePossibleScores [4; 4; 4; 4; 4] !! "full_house"%string = Some 25
     ↔ two_and_three [4; 4; 4; 4; 4])
  ∧ (¬ two_and_three [4; 4; 4; 4; 4] →
     calculatePossibleScores [4; 4; 4; 4; 4] !! "full_house"%string = Some 0)
  ∧ (calculatePossibleScores [4; 4; 4; 4; 4] !! "yahtzee"%string = Some 50
     ↔ five_alike [4; 4; 4; 4; 4])
  ∧ (¬ five_alike [4; 4; 4; 4; 4] →
     calculatePossibleScores [4; 4; 4; 4; 4] !! "yahtzee"%string = Some 0)
  ∧ (∀ v, [4; 4; 4; 4; 4] = [v; v; v; v; v] →
       calculatePossibleScores [4; 4; 4; 4; 4] !! "full_house"%string = Some 0
       ∧ calculatePossibleScores [4; 4; 4; 4; 4] !! "yahtzee"%string = Some 50).
Proof.
  assert (valid_dice [4; 4; 4; 4; 4]) as Hvalid
    by (split; [reflexivity | repeat constructor; lia]).
  split; [exact Hvalid | exact (full_house_and_yahtzee_scores [4; 4; 4; 4; 4] Hvalid)].
Defined.

(** ** Final score *)

Lemma add_if_set_loop (sb : scoreboard) (keys : list category) (acc : Z) :
  foldl (add_if_set sb) acc keys = acc + sum_of (set_entries sb keys).
Proof.
  revert acc. induction keys as [|k keys IH]; intros acc; simpl; [unfold sum_of; simpl; lia|].
  rewrite IH. unfold add_if_set, set_entries. simpl.
  destruct (sb_get sb k); unfold sum_of; simpl; lia.
Qed.

(** C6: [calculateFinalScore] returns the upper subtotal, the bonus, the
    lower subtotal and the total: the subtotals add the entries that are set
    in their section, an unset entry counting 0; the bonus is 35 when the
    upper subtotal is at least 63 and 0 otherwise; the total is their sum. *)
Theorem final_score_breakdown (sb : scoreboard) :
  ∃ upperSubtotal bonus lowerSubtotal total,
    calculateFinalScore sb = (upperSubtotal, bonus, lowerSubtotal, total)
    ∧ upperSubtotal = sum_of (set_entries sb [Ones; Twos; Threes; Fours; Fives; Sixes])
    ∧ upperSubtotal
      = contribution (ones sb) + contribution (twos sb) + contribution (threes sb)
        + contribution (fours sb) + contribution (fives sb) + contribution (sixes sb)
    ∧ (bonus = 35 ↔ 63 ≤ upperSubtotal)
    ∧ (bonus = 0 ↔ upperSubtotal < 63)
    ∧ lowerSubtotal
      = sum_of (set_entries sb [ThreeOfAKind; FourOfAKind; FullHouse; SmallStraight;
                             LargeStraight; Yahtzee; Chance])
    ∧ lowerSubtotal
      = contribution (three_of_a_kind sb) + contribution (four_of_a_kind sb)
        + contribution (full_house sb) + contribution (small_straight sb)
        + contribution (large_straight sb) + contribution (yahtzee sb)
        + contribution (chance sb)
    ∧ total = upperSubtotal + bonus + lowerSubtotal.
Proof.
  unfold calculateFinalScore. do 4 eexists. split; [reflexivity|].
  rewrite !add_if_set_loop. fold upperKeys lowerKeys.
  set (up := sum_of (set_entries sb upperKeys)).
  set (low := sum_of (set_entries sb lowerKeys)).
  assert (up = contribution (ones sb) + contribution (twos sb) + contribution (threes sb)
               + contribution (fours sb) + contribution (fives sb) + contribution (sixes sb))
    as Hup.
  { subst up. unfold set_entries, upperKeys, sum_of, contribution. simpl.
    destruct (ones sb), (twos sb), (threes sb), (fours sb), (fives sb), (sixes sb);
      simpl; lia. }
  assert (low = contribution (three_of_a_kind sb) + contribution (four_of_a_kind sb)
                + contribution (full_house sb) + contribution (small_straight sb)
                + contribution (large_straight sb) + contribution (yahtzee sb)
                + contribution (chance sb)) as Hlow.
  { subst low. unfold set_entries, lowerKeys, sum_of, contribution. simpl.
    destruct (three_of_a_kind sb), (four_of_a_kind sb), (full_house sb),
      (small_straight sb), (large_straight sb), (yahtzee sb), (chance sb); simpl; lia. }
  split_and!; try done; try lia; destruct (Z.leb_spec 63 (0 + up)); lia.
Qed.

(** ** Rolling the dice *)

Lemma sample_random_range (n : nat) : (0 <= sample_random n < 1)%Q.
Proof. unfold sample_random. destruct (Nat.even n); split; vm_compute; congruence. Qed.

Section Rolling.

Variable random : nat → Q.

(** [Math.random] returns a number from 0 inclusive to 1 exclusive. *)
Hypothesis random_range : ∀ n, (0 <= random n < 1)%Q.

Lemma roll_face_range (n : nat) : 1 ≤ roll_face random n ≤ 6.
Proof.
  unfold roll_face. destruct (random_range n) as [Hlo Hhi].
  assert (0 ≤ Qfloor (random n * 6)) as H0.
  { change 0 with (Qfloor 0). apply Qfloor_resp_le.
    rewrite <- (Qmult_0_l 6). apply Qmult_le_compat_r; [done|]. vm_compute. congruence. }
  assert (Qfloor (random n * 6) < 6) as H6.
  { rewrite Zlt_Qlt. eapply Qle_lt_trans; [apply Qfloor_le|].
    change (inject_Z 6) with (1 * 6)%Q. apply Qmult_lt_compat_r; [|done].
    vm_compute. congruence. }
  lia.
Qed.

Lemma roll_die_shape (s : state) (i : nat) :
  ∃ vs d, roll_die random s i = set_draws d (set_diceValues vs s).
Proof.
  unfold roll_die. destruct (negb _); [eauto|].
  exists (diceValues s), (draws s). by destruct s.
Qed.

Lemma roll_loop_shape (idx : list nat) (s : state) :
  ∃ vs d, foldl (roll_die random) s idx = set_draws d (set_diceValues vs s).
Proof.
  revert s. induction idx as [|i idx IH]; intros s; simpl.
  - exists (diceValues s), (draws s). by destruct s.
  - destruct (roll_die_shape s i) as (vs & d & ->).
    destruct (IH (set_draws d (set_diceValues vs s))) as (vs' & d' & ->). eauto.
Qed.

(** [rollDice] writes nothing but [diceValues] (and consumes random
    numbers). *)
Lemma rollDice_shape (s : state) :
  ∃ vs d, rollDice random s = set_draws d (set_diceValues vs s).
Proof. apply roll_loop_shape. Qed.

Lemma roll_die_kept (s : state) (i : nat) : diceKept (roll_die random s i) = diceKept s.
Proof. by destruct (roll_die_shape s i) as (vs & d & ->). Qed.

Lemma roll_die_length (s : state) (i : nat) :
  length (diceValues (roll_die random s i)) = length (diceValues s).
Proof. unfold roll_die. destruct (negb _); simpl; [apply length_insert | done]. Qed.

(** The loop of [rollDice] over the indices [idx]: a die that is kept, or
    whose index is not visited, keeps its value; a visited die that is not
    kept shows a face from 1 to 6. *)
Lemma roll_loop_values (idx : list nat) (s : state) :
  let s' := foldl (roll_die random) s idx in
  diceKept s' = diceKept s
  ∧ length (diceValues s') = length (diceValues s)
  ∧ (∀ i, i ∉ idx ∨ diceKept s !! i = Some true →
          diceValues s' !! i = diceValues s !! i)
  ∧ (∀ i, i ∈ idx → diceKept s !! i ≠ Some true → (i < length (diceValues s))%nat →
          ∃ v, diceValues s' !! i = Some v ∧ 1 ≤ v ≤ 6).
Proof.
  revert s. induction idx as [|j idx IH]; intros s; cbn zeta.
  { split_and!; try done. intros i Hi. by apply elem_of_nil in Hi. }
  cbn [foldl]. destruct (IH (roll_die random s j)) as (Hk & Hlen & Hsame & Hnew).
  rewrite roll_die_kept in *. rewrite roll_die_length in *.
  split_and!; try done.
  - intros i Hi. rewrite Hsame by set_solver.
    unfold roll_die. destruct (diceKept s !! j) as [[]|] eqn:Hj; simpl; try done.
    all: apply list_lookup_insert_ne; intros ->; destruct Hi as [Hi|Hi];
      [set_solver | congruence].
  - intros i Hi Hnk Hlt. destruct (decide (i ∈ idx)) as [Hin|Hnin]; [by apply Hnew|].
    assert (i = j) as -> by set_solver.
    rewrite Hsame by tauto. exists (roll_face random (draws s)).
    split; [|apply roll_face_range].
    unfold roll_die. destruct (diceKept s !! j) as [[]|] eqn:Hj; simpl; try done.
    all: by apply list_lookup_insert_eq.
Qed.

Lemma unkept_before_S (s : state) (n : nat) :
  unkept_before s (S n)
  = (unkept_before s n + if decide (diceKept s !! n = Some true) then 0 else 1)%nat.
Proof.
  unfold unkept_before. rewrite seq_S, filter_app, length_app. f_equal.
  cbn [Nat.add]. rewrite filter_cons, filter_nil.
  destruct (decide (diceKept s !! n ≠ Some true)), (decide (diceKept s !! n = Some true));
    done.
Qed.

(** The loop of [rollDice] after its first [n] rounds: the dice below [n]
    that are not kept show the faces of the results of [Math.random] drawn
    since the loop began, one result each. *)
Lemma roll_prefix (n : nat) (s : state) :
  (n ≤ length (diceValues s))%nat →
  diceKept (foldl (roll_die random) s (seq 0 n)) = diceKept s
  ∧ length (diceValues (foldl (roll_die random) s (seq 0 n))) = length (diceValues s)
  ∧ draws (foldl (roll_die random) s (seq 0 n)) = (draws s + unkept_before s n)%nat
  ∧ ∀ i, diceValues (foldl (roll_die random) s (seq 0 n)) !! i
         = if bool_decide ((i < n)%nat ∧ diceKept s !! i ≠ Some true)
           then Some (roll_face random (draws s + unkept_before s i))
           else diceValues s !! i.
Proof.
  induction n as [|n IH]; intros Hn.
  { by split_and!. }
  destruct IH as (Hk & Hl & Hd & Hv); [lia|].
  rewrite seq_S, foldl_app. cbn [foldl Nat.add].
  rewrite unkept_before_S.
  set (sn := foldl (roll_die random) s (seq 0 n)) in *.
  unfold roll_die. rewrite Hk.
  destruct (decide (diceKept s !! n = Some true)) as [Hkn|Hkn].
  - rewrite Hkn. cbn [default from_option id negb]. split_and!; try done; [lia|].
    intros i. rewrite Hv.
    destruct (decide (i = n)) as [->|Hne]; repeat case_bool_decide; try done; exfalso;
      naive_solver lia.
  - assert (default false (diceKept s !! n) = false) as ->
      by (destruct (diceKept s !! n) as [[]|]; done).
    cbn [negb diceKept diceValues draws set_draws set_diceValues].
    split_and!; try done; [by rewrite length_insert|lia|].
    intros i. destruct (decide (i = n)) as [->|Hne].
    + rewrite list_lookup_insert_eq by lia.
      rewrite bool_decide_eq_true_2 by (split; [lia|done]). by rewrite Hd.
    + rewrite list_lookup_insert_ne by done. rewrite Hv.
      repeat case_bool_decide; try done; exfalso; naive_solver lia.
Qed.

Lemma rollDice_frame (s : state) :
  length (diceValues s) = NUM_DICE → only_unkept_rerolled random s (rollDice random s).
Proof.
  intros Hlen. unfold rollDice.
  destruct (roll_prefix NUM_DICE s) as (Hk & Hl & Hd & Hv); [lia|].
  split_and!; try done. intros i Hi. rewrite Hv. split.
  - intros Hkept. rewrite bool_decide_eq_false_2; [done|]. intros [_ ?]. done.
  - intros Hkept. rewrite bool_decide_eq_true_2 by (split; [done|congruence]).
    split; [done|apply roll_face_range].
Qed.

(** A roll leaves the kept flags and the kept dice alone, whatever the
    arrays are. *)
Lemma roll_die_ready (s : state) (i : nat) : dice_ready s → dice_ready (roll_die random s i).
Proof.
  intros Hs. unfold roll_die, dice_ready. destruct (negb _); [|done].
  cbn [diceValues set_draws set_diceValues].
  apply Forall_insert; [done|]. by apply roll_face_range.
Qed.

Lemma rollDice_ready (s : state) : dice_ready s → dice_ready (rollDice random s).
Proof.
  unfold rollDice. generalize (seq 0 NUM_DICE). intros idx. revert s.
  induction idx as [|i idx IH]; intros s Hs; [done|].
  cbn [foldl]. by apply IH, roll_die_ready.
Qed.

Lemma rollDice_kept_stay (s : state) : kept_dice_stay s (rollDice random s).
Proof.
  destruct (roll_loop_values (seq 0 NUM_DICE) s) as (Hk & _ & Hsame & _).
  split; [done|]. intros i Hi. apply Hsame. by right.
Qed.

Lemma kept_dice_stay_trans (s1 s2 s3 : state) :
  kept_dice_stay s1 s2 → kept_dice_stay s2 s3 → kept_dice_stay s1 s3.
Proof.
  intros [Hk1 Hv1] [Hk2 Hv2]. split; [congruence|].
  intros i Hi. rewrite Hv2, Hv1; [done..|congruence].
Qed.

(** After a roll the scene can be drawn as before it. *)
Lemma rollDice_drawable (s : state) : scene_drawable s → scene_drawable (rollDice random s).
Proof.
  intros (Hd & Hc & Hlen & Hready).
  destruct (roll_loop_values (seq 0 NUM_DICE) s) as (_ & Hl & _ & _).
  pose proof (rollDice_ready s Hready) as Hready'.
  unfold scene_drawable. fold (rollDice random s) in Hl. rewrite Hl.
  destruct (rollDice_shape s) as (vs & d & Heq). rewrite Heq in *. by split_and!.
Qed.

(** Setters of fields the loop of [rollDice] neither reads nor writes
    commute with it. *)
Lemma roll_loop_commute (f : state → state) (idx : list nat) (s : state) :
  (∀ s i, roll_die random (f s) i = f (roll_die random s i)) →
  foldl (roll_die random) (f s) idx = f (foldl (roll_die random) s idx).
Proof.
  intros Hf. revert s. induction idx as [|i idx IH]; intros s; simpl; [done|].
  by rewrite Hf, IH.
Qed.

Lemma rollDice_set_shake (x : option nat) (s : state) :
  rollDice random (set_shake x s) = set_shake x (rollDice random s).
Proof.
  apply roll_loop_commute. intros s' i. unfold roll_die. simpl. by destruct (negb _).
Qed.

Lemma rollDice_set_isAnimating (x : bool) (s : state) :
  rollDice random (set_isAnimating x s) = set_isAnimating x (rollDice random s).
Proof.
  apply roll_loop_commute. intros s' i. unfold roll_die. simpl. by destruct (negb _).
Qed.

Lemma rollDice_set_rollsLeft (x : Z) (s : state) :
  rollDice random (set_rollsLeft x s) = set_rollsLeft x (rollDice random s).
Proof.
  apply roll_loop_commute. intros s' i. unfold roll_die. simpl. by destruct (negb _).
Qed.

(** ** Start of a turn *)

Lemma beginPlayerTurn_fresh (s : state) : fresh_turn random (draws s) (beginPlayerTurn random s).
Proof.
  unfold fresh_turn. split_and!; try reflexivity.
  change (diceValues (beginPlayerTurn random s))
    with [roll_face random (draws s); roll_face random (1 + draws s);
          roll_face random (2 + draws s); roll_face random (3 + draws s);
          roll_face random (4 + draws s)].
  repeat (apply Forall_cons_2; [apply roll_face_range|]). apply Forall_nil_2.
Qed.

(** C8: at the start of every turn, at game start and after each advance
    that does not end the game, the five kept flags are cleared, rolls-left
    is 2, and the automatic first roll has given each of the five dice a
    face from 1 to 6 without using up a roll. *)
Theorem turn_start_state :
  (∀ n s, fresh_turn random (draws s) (setNumberOfPlayers random n s))
  ∧ (∀ s, (currentRound (nextPlayerOrRound random s) ≤ MAX_TURNS)%nat →
          fresh_turn random (draws s) (nextPlayerOrRound random s))
  ∧ (∀ s, gameMode (nextPlayerOrRound random s) = gameOver
          ∨ fresh_turn random (draws s) (nextPlayerOrRound random s)).
Proof.
  split_and!.
  - intros n s. exact (beginPlayerTurn_fresh (set_numPlayers n s)).
  - intros s. unfold nextPlayerOrRound. cbv zeta.
    repeat case_bool_decide; simpl in *; try lia; intros _.
    + exact (beginPlayerTurn_fresh (set_currentPlayer 0 s)).
    + exact (beginPlayerTurn_fresh (set_currentPlayer 0 s)).
  - intros s. unfold nextPlayerOrRound. cbv zeta.
    repeat case_bool_decide; simpl; auto; right.
    + exact (beginPlayerTurn_fresh (set_currentPlayer 0 s)).
    + exact (beginPlayerTurn_fresh (set_currentPlayer 0 s)).
Qed.

(** ** The cup shake *)

Lemma run_app (es es' : list event) (s : state) :
  run random (es ++ es') s = run random es' (run random es s).
Proof. apply foldl_app. Qed.

(** The scene is drawn when both sprite sheets are loaded and the dice show
    faces; with a sprite sheet missing, drawing all the dice and the cup
    throws. *)
Lemma draw_succeeds (skipUnkept : bool) (s : state) :
  scene_drawable s → drawRollingSceneWithCup skipUnkept s = true.
Proof.
  intros (Hd & Hc & Hlen & Hready). unfold drawRollingSceneWithCup.
  rewrite Hc, andb_true_r. apply forallb_forall. intros i Hi%in_seq.
  unfold draws_die. destruct (skipUnkept && _); [done|].
  destruct (lookup_lt_is_Some_2 (diceValues s) i) as [v Hv]; [lia|].
  rewrite Hv, Hd. apply bool_decide_eq_true_2.
  exact (Forall_lookup_1 _ _ _ _ Hready Hv).
Qed.

Lemma draw_throws (s : state) :
  diceFacesLoaded s = false ∨ cupFramesLoaded s = false →
  drawRollingSceneWithCup false s = false.
Proof.
  intros [Hd|Hc]; unfold drawRollingSceneWithCup.
  - cbn [NUM_DICE seq forallb]. unfold draws_die at 1. cbn [andb].
    rewrite Hd. by destruct (diceValues s !! 0%nat).
  - by rewrite Hc, andb_false_r.
Qed.

(** Frames in which the suspended [animateCupShake] only draws: all but
    the frame after which the dice are rolled and the last one. *)
Lemma run_drawing_frames (n k : nat) (s : state) :
  shake s = Some k → scene_drawable s →
  (k + n < stepsIn + shakeFrames
   ∨ stepsIn + shakeFrames ≤ k ∧ k + n < stepsIn + shakeFrames + stepsOut)%nat →
  run random (replicate n AnimationFrame) s = set_shake (Some (k + n)%nat) s.
Proof.
  revert k s. induction n as [|n IH]; intros k s Hk Hdraw Hn.
  - rewrite Nat.add_0_r. destruct s; simpl in *; by subst.
  - change (run random (replicate (S n) AnimationFrame) s)
      with (run random (replicate n AnimationFrame) (resumeCupShake random s)).
    assert (resumeCupShake random s = set_shake (Some (S k)) s) as ->.
    { unfold resumeCupShake. rewrite Hk, !draw_succeeds by done.
      repeat case_bool_decide; try done; lia. }
    rewrite (IH (S k)); [|done|exact Hdraw|lia]. by rewrite Nat.add_succ_comm.
Qed.

Lemma run_cons (e : event) (es : list event) (s : state) :
  run random (e :: es) s = run random es (handle random e s).
Proof. reflexivity. Qed.

(** The frame after which the dice are rolled, and the last frame. *)
Lemma resume_roll_frame (s : state) :
  shake s = Some 50%nat → scene_drawable s →
  resumeCupShake random s = set_shake (Some 51%nat) (rollDice random s).
Proof. intros Hk Hdraw. unfold resumeCupShake. by rewrite Hk, !draw_succeeds. Qed.

Lemma resume_last_frame (s : state) :
  shake s = Some 65%nat → scene_drawable s →
  resumeCupShake random s = set_shake None (set_isAnimating false s).
Proof. intros Hk Hdraw. unfold resumeCupShake. by rewrite Hk, !draw_succeeds. Qed.

(** What a frame can do: the suspended call goes on or ends, with or
    without a roll of the dice. *)
Lemma resumeCupShake_shape (s : state) :
  ∃ sh an s0, (s0 = s ∨ s0 = rollDice random s)
    ∧ resumeCupShake random s = set_shake sh (set_isAnimating an s0)
    ∧ (an = isAnimating s ∨ an = false ∧ sh = None).
Proof.
  assert (∀ sh, set_shake sh s = set_shake sh (set_isAnimating (isAnimating s) s)) as Heta
    by (intros sh; by destruct s).
  assert (∀ sh, set_shake sh (rollDice random s)
                = set_shake sh (set_isAnimating (isAnimating s) (rollDice random s))) as Heta'.
  { intros sh. destruct (rollDice_shape s) as (vs & d & ->). by destruct s. }
  unfold resumeCupShake. destruct (shake s) as [waited|] eqn:Hw.
  - repeat (case_bool_decide || destruct (drawRollingSceneWithCup _ _));
      first [ by eauto 10 | by (do 3 eexists; split_and!; [left; done|done|right; done]) ].
  - exists None, (isAnimating s), s. split_and!; [by left| |by left].
    destruct s; simpl in *; by subst.
Qed.

Lemma accepted_keydown_r (s : state) :
  gameMode s = rolling → isAnimating s = false → 0 < rollsLeft s →
  on_keydown "r" s
  = set_shake (Some 0%nat) (set_rollsLeft (rollsLeft s - 1) (set_isAnimating true s)).
Proof.
  intros Hmode Hanim Hrolls. unfold on_keydown, animateCupShake.
  rewrite Hmode, Hanim. cbn [negb andb].
  rewrite (bool_decide_eq_true_2 (rolling = rolling)) by done. cbn [andb].
  rewrite (bool_decide_eq_true_2 (_ ∨ _)) by (by left).
  by rewrite (bool_decide_eq_true_2 (0 < _)).
Qed.

Lemma cup_shake_frames :
  replicate (stepsIn + shakeFrames + stepsOut) AnimationFrame
  = replicate 50 AnimationFrame ++ [AnimationFrame]
    ++ replicate 14 AnimationFrame ++ [AnimationFrame].
Proof. reflexivity. Qed.

(** A complete reroll, when the key press is accepted and the scene can be
    drawn, rolls the dice once and takes one from rolls-left; nothing else
    has changed when the cup shake ends. *)
Lemma run_reroll (s : state) :
  gameMode s = rolling → isAnimating s = false → shake s = None → 0 < rollsLeft s →
  scene_drawable s →
  run random reroll_events s = set_rollsLeft (rollsLeft s - 1) (rollDice random s).
Proof.
  intros Hmode Hanim Hshake Hrolls Hdraw. unfold reroll_events.
  rewrite run_cons. cbn [handle]. rewrite accepted_keydown_r by done.
  set (s1 := set_rollsLeft (rollsLeft s - 1) (set_isAnimating true s)).
  assert (scene_drawable s1) as Hdraw1 by exact Hdraw.
  assert (scene_drawable (rollDice random s1)) as Hdraw2 by by apply rollDice_drawable.
  rewrite cup_shake_frames, !run_app.
  rewrite (run_drawing_frames 50 0)
    by first [done | exact Hdraw1 | left; unfold stepsIn, shakeFrames; lia].
  cbn [run handle foldl].
  rewrite (resume_roll_frame (set_shake _ (set_shake _ s1))) by first [done | exact Hdraw1].
  rewrite !rollDice_set_shake.
  rewrite (run_drawing_frames 14 51)
    by first [done | exact Hdraw2 | right; unfold stepsIn, shakeFrames, stepsOut; lia].
  rewrite resume_last_frame by first [done | exact Hdraw2].
  subst s1. rewrite rollDice_set_rollsLeft, rollDice_set_isAnimating.
  destruct (rollDice_shape s) as (vs & d & ->).
  destruct s; simpl in *; by subst.
Qed.

(** The R key and any number of animation frames leave the kept flags and
    the kept dice alone. *)
Lemma kept_stay_keydown_r (s : state) : kept_dice_stay s (on_keydown "r" s).
Proof.
  unfold on_keydown, animateCupShake.
  destruct (_ && _); [|done].
  rewrite (bool_decide_eq_true_2 (_ ∨ _)) by (by left).
  case_bool_decide; [|done]. by destruct (isAnimating s).
Qed.

Lemma kept_stay_resume (s : state) : kept_dice_stay s (resumeCupShake random s).
Proof.
  destruct (resumeCupShake_shape s) as (sh & an & s0 & [->| ->] & -> & _); [done|].
  exact (rollDice_kept_stay s).
Qed.

Lemma kept_stay_frames (n : nat) (s : state) :
  kept_dice_stay s (run random (replicate n AnimationFrame) s).
Proof.
  revert s. induction n as [|n IH]; intros s; [done|].
  cbn [replicate]. rewrite run_cons. cbn [handle].
  exact (kept_dice_stay_trans _ _ _ (kept_stay_resume s) (IH _)).
Qed.

(** C9: a roll of the dice leaves the five kept flags and the values of the
    kept dice as they are and replaces the value of every die that is not
    kept by the face, from 1 to 6, of a fresh result of [Math.random], one
    result for each such die in the order of the dice; it writes nothing
    but the dice values.  A complete reroll (the R key and the 66 frames of
    the cup shake), when the key is accepted and both sprite sheets are
    loaded, changes the state by exactly that roll, besides taking one from
    rolls-left.  And however far a reroll gets, the key and any number of
    frames leave the kept flags and the kept dice as they are. *)
Theorem reroll_changes_only_unkept_dice (s : state) :
  length (diceValues s) = NUM_DICE →
  only_unkept_rerolled random s (rollDice random s)
  ∧ (∃ vals n, rollDice random s = set_draws n (set_diceValues vals s))
  ∧ (gameMode s = rolling → isAnimating s = false → shake s = None → 0 < rollsLeft s →
     scene_drawable s →
     run random reroll_events s = set_rollsLeft (rollsLeft s - 1) (rollDice random s)
     ∧ only_unkept_rerolled random s (run random reroll_events s))
  ∧ (∀ n, kept_dice_stay s (run random (Keydown "r" :: replicate n AnimationFrame) s)).
Proof.
  intros Hlen. pose proof (rollDice_frame s Hlen) as Hframe.
  split; [done|]. split; [apply rollDice_shape|]. split.
  - intros Hmode Hanim Hshake Hrolls Hdraw.
    rewrite run_reroll by done. split; [done|]. exact Hframe.
  - intros n. rewrite run_cons. cbn [handle].
    exact (kept_dice_stay_trans _ _ _ (kept_stay_keydown_r s) (kept_stay_frames n _)).
Qed.

End Rolling.

(** ** Rolls left *)

Section Game.

Variable random : nat → Q.

Lemma rollsLeft_rollDice (s : state) : rollsLeft (rollDice random s) = rollsLeft s.
Proof. by destruct (rollDice_shape random s) as (vs & d & ->). Qed.

Lemma rollsLeft_beginPlayerTurn (s : state) : rollsLeft (beginPlayerTurn random s) = 2.
Proof. reflexivity. Qed.

Lemma rollsLeft_nextPlayerOrRound (s : state) :
  rollsLeft (nextPlayerOrRound random s) = rollsLeft s
  ∨ rollsLeft (nextPlayerOrRound random s) = 2.
Proof.
  unfold nextPlayerOrRound. cbv zeta.
  repeat case_bool_decide; first [by left | by right].
Qed.

Lemma rollsLeft_openScoreSelectionOverlay (s s' : state) :
  openScoreSelectionOverlay s = Some s' → rollsLeft s' = rollsLeft s.
Proof.
  unfold openScoreSelectionOverlay. destruct (scoreboards s !! currentPlayer s); [|done].
  simpl. by intros [= <-].
Qed.

(** What a key press can do to rolls-left: nothing, or take exactly one
    from a positive count. *)
Lemma rollsLeft_on_keydown (k : string) (s : state) :
  rollsLeft (on_keydown k s) = rollsLeft s
  ∨ (0 < rollsLeft s ∧ rollsLeft (on_keydown k s) = rollsLeft s - 1).
Proof.
  unfold on_keydown, animateCupShake.
  destruct (bool_decide (gameMode s = rolling) && negb (isAnimating s)) eqn:Hguard;
    [|by left].
  apply andb_true_iff in Hguard as [_ Hanim%negb_true_iff]. rewrite Hanim.
  repeat case_bool_decide; try (by left); [by right|].
  left. destruct (openScoreSelectionOverlay _) as [s'|] eqn:Hopen; [|done].
  simpl. by rewrite (rollsLeft_openScoreSelectionOverlay _ _ Hopen).
Qed.

(** Every event leaves rolls-left between 0 and 2. *)
Lemma rollsLeft_handle (e : event) (s : state) :
  0 ≤ rollsLeft s ≤ 2 → 0 ≤ rollsLeft (handle random e s) ≤ 2.
Proof.
  intros Hs. destruct e as [k|hit| | | | |n|cat forceZero|]; cbn [handle]; try done.
  - destruct (rollsLeft_on_keydown k s) as [->|[? ->]]; lia.
  - unfold on_mousedown. by repeat case_match.
  - destruct (resumeCupShake_shape random s) as (sh & an & s0 & [->| ->] & -> & _); [done|].
    cbn [rollsLeft set_shake set_isAnimating]. by rewrite rollsLeft_rollDice.
  - unfold gameLoop, openFinalScoresOverlay. by repeat case_match.
  - unfold selectScoreCategory, applyScoreToCategory.
    destruct (scoreboards s !! currentPlayer s); [|done].
    destruct forceZero; simpl;
      match goal with |- context [nextPlayerOrRound random ?x] =>
        destruct (rollsLeft_nextPlayerOrRound x) as [->| ->] end; simpl; lia.
Qed.

Lemma rollsLeft_run (es : list event) (s : state) :
  0 ≤ rollsLeft s ≤ 2 → 0 ≤ rollsLeft (run random es s) ≤ 2.
Proof.
  revert s. induction es as [|e es IH]; intros s Hs; [done|].
  apply (IH (handle random e s)). by apply rollsLeft_handle.
Qed.

(** C5: a reroll request (the R key) changes nothing when rolls-left is 0 or
    a cup shake is in progress; a request either changes nothing or takes
    exactly one from a positive rolls-left, leaving the dice as they are
    until the shake rolls them, and it does the latter whenever the page is
    rolling, no shake is in progress and rolls-left is positive; in every run of the page rolls-left stays
    between 0 and 2. *)
Theorem reroll_request_guard :
  (∀ s k, k = "r"%string ∨ k = "R"%string →
          rollsLeft s = 0 ∨ isAnimating s = true → on_keydown k s = s)
  ∧ (∀ s, isAnimating s = true → animateCupShake s = s)
  ∧ (∀ s k, k = "r"%string ∨ k = "R"%string →
            on_keydown k s = s
            ∨ (gameMode s = rolling ∧ isAnimating s = false ∧ 0 < rollsLeft s
               ∧ rollsLeft (on_keydown k s) = rollsLeft s - 1
               ∧ isAnimating (on_keydown k s) = true
               ∧ diceValues (on_keydown k s) = diceValues s
               ∧ diceKept (on_keydown k s) = diceKept s))
  ∧ (∀ s k, k = "r"%string ∨ k = "R"%string →
            gameMode s = rolling → isAnimating s = false → 0 < rollsLeft s →
            rollsLeft (on_keydown k s) = rollsLeft s - 1
            ∧ isAnimating (on_keydown k s) = true)
  ∧ (∀ es, 0 ≤ rollsLeft (run random es initial_state) ≤ 2)
  ∧ (∀ es n s, 0 ≤ rollsLeft (run random es (setNumberOfPlayers random n s)) ≤ 2).
Proof.
  split_and!.
  - intros s k Hk Hrej. unfold on_keydown.
    destruct Hrej as [Hzero|Hanim].
    + rewrite (bool_decide_eq_true_2 _ Hk), Hzero.
      rewrite (bool_decide_eq_false_2 (0 < 0)) by lia. by destruct (_ && _).
    + rewrite Hanim. by rewrite andb_false_r.
  - intros s Hanim. unfold animateCupShake. by rewrite Hanim.
  - intros s k Hk. unfold on_keydown, animateCupShake.
    rewrite (bool_decide_eq_true_2 _ Hk).
    destruct (bool_decide (gameMode s = rolling)) eqn:Hmode; [|by left].
    apply bool_decide_eq_true in Hmode.
    destruct (isAnimating s) eqn:Hanim; [by left|]. simpl.
    case_bool_decide; [|by left]. right. by split_and!.
  - intros s k Hk Hmode Hanim Hrolls. unfold on_keydown, animateCupShake.
    rewrite (bool_decide_eq_true_2 _ Hk), (bool_decide_eq_true_2 _ Hmode), Hanim.
    cbn [negb andb]. by rewrite (bool_decide_eq_true_2 _ Hrolls).
  - intros es. by apply rollsLeft_run.
  - intros es n s. by apply rollsLeft_run.
Qed.

(** ** Rounds and players *)

Lemma nextPlayerOrRound_fields (s : state) :
  numPlayers (nextPlayerOrRound random s) = numPlayers s
  ∧ scoreboards (nextPlayerOrRound random s) = scoreboards s
  ∧ currentPlayer (nextPlayerOrRound random s)
    = (if bool_decide (numPlayers s ≤ S (currentPlayer s))%nat then 0%nat
       else S (currentPlayer s))
  ∧ currentRound (nextPlayerOrRound random s)
    = (if bool_decide (numPlayers s ≤ S (currentPlayer s))%nat
       then S (currentRound s) else currentRound s)
  ∧ (gameMode (nextPlayerOrRound random s) = gameOver
     ↔ (MAX_TURNS < currentRound (nextPlayerOrRound random s))%nat).
Proof.
  unfold nextPlayerOrRound. cbv zeta. cbn [numPlayers currentPlayer set_currentPlayer].
  destruct (bool_decide (numPlayers s ≤ S (currentPlayer s))%nat);
    cbn [currentRound set_currentRound set_currentPlayer];
    case_bool_decide; split_and!; try reflexivity; split; try done; intros; lia.
Qed.

Lemma openScoreSelectionOverlay_shape (s : state) :
  openScoreSelectionOverlay s = None
  ∨ ∃ c, openScoreSelectionOverlay s = Some (set_overlayActive true (set_overlayContent c s)).
Proof.
  unfold openScoreSelectionOverlay.
  destruct (scoreboards s !! currentPlayer s); [right|left]; eauto.
Qed.

(** Events that commit nothing leave the players, the scoreboards, the
    round and the player alone, and neither end the game nor revive it. *)
Lemma handle_not_commit (e : event) (s : state) :
  in_game e → is_commit e = false →
  numPlayers (handle random e s) = numPlayers s
  ∧ scoreboards (handle random e s) = scoreboards s
  ∧ currentRound (handle random e s) = currentRound s
  ∧ currentPlayer (handle random e s) = currentPlayer s
  ∧ (gameMode (handle random e s) = gameOver ↔ gameMode s = gameOver).
Proof.
  intros Hin Hnc. destruct e as [k|hit| | | | |n|cat forceZero|]; try done; cbn [handle].
  - unfold on_keydown, animateCupShake.
    destruct (bool_decide (gameMode s = rolling)) eqn:Hmode; [|done].
    apply bool_decide_eq_true in Hmode.
    destruct (isAnimating s); [done|]. simpl.
    repeat case_bool_decide; try done.
    destruct (openScoreSelectionOverlay_shape (set_gameMode scoreSelection (set_turnEnded true s)))
      as [->|[c ->]]; simpl; split_and!; try done; rewrite Hmode; by split.
  - unfold on_mousedown. by repeat case_match.
  - destruct (resumeCupShake_shape random s) as (sh & an & s0 & [->| ->] & -> & _); [done|].
    by destruct (rollDice_shape random s) as (vs & d & ->).
  - unfold gameLoop, openFinalScoresOverlay.
    repeat case_match; try done; split_and!; try done; split; congruence.
Qed.

(** Advancing the turn after a scoreboard has been written. *)
Lemma advance_after_write (N : nat) (sbs : list scoreboard) (s : state) :
  game_inv N s → length sbs = N →
  game_inv N (nextPlayerOrRound random (set_overlayActive false (set_scoreboards sbs s)))
  ∧ turns_done N (nextPlayerOrRound random (set_overlayActive false (set_scoreboards sbs s)))
    = S (turns_done N s).
Proof.
  intros (HN & Hlen & Hp & Hr & Hmode) Hsbs.
  destruct (nextPlayerOrRound_fields (set_overlayActive false (set_scoreboards sbs s)))
    as (Hn' & Hs' & Hp' & Hr' & Hm').
  cbn [numPlayers scoreboards currentPlayer currentRound set_overlayActive set_scoreboards]
    in Hn', Hs', Hp', Hr'.
  rewrite HN in Hp', Hr'. rewrite Hr' in Hm'.
  unfold game_inv, turns_done. rewrite Hn', Hs', Hp', Hr'.
  case_bool_decide; split_and!; try done; try lia.
  assert (S (currentPlayer s) = N) as <- by lia. nia.
Qed.

(** A commit in a running game is recorded and advances the turn. *)
Lemma handle_commit (N : nat) (cat : category) (forceZero : bool) (s : state) :
  game_inv N s →
  game_inv N (selectScoreCategory random cat forceZero s)
  ∧ turns_done N (selectScoreCategory random cat forceZero s) = S (turns_done N s).
Proof.
  intros Hinv. pose proof Hinv as (HN & Hlen & Hp & Hr & Hmode).
  unfold selectScoreCategory, applyScoreToCategory.
  destruct (lookup_lt_is_Some_2 (scoreboards s) (currentPlayer s)) as [sb Hsb]; [lia|].
  rewrite Hsb. cbn [mbind option_bind].
  destruct forceZero; apply advance_after_write; try done; by rewrite length_insert.
Qed.

Lemma handle_game_inv (N : nat) (e : event) (s : state) :
  in_game e → game_inv N s →
  game_inv N (handle random e s)
  ∧ turns_done N (handle random e s)
    = (turns_done N s + if is_commit e then 1 else 0)%nat.
Proof.
  intros Hin Hinv. destruct (is_commit e) eqn:Hc.
  - destruct e; try done. cbn [handle].
    destruct (handle_commit N cat forceZero s Hinv) as [? ->]. split; [done|lia].
  - destruct (handle_not_commit e s Hin Hc) as (Hn & Hs & Hr & Hp & Hm).
    destruct Hinv as (HN & Hlen & Hp0 & Hr0 & Hmode).
    unfold game_inv, turns_done. rewrite Hn, Hs, Hr, Hp, Hm. split; [done|lia].
Qed.

Lemma run_game_inv (N : nat) (es : list event) (s : state) :
  Forall in_game es → game_inv N s →
  game_inv N (run random es s)
  ∧ turns_done N (run random es s) = (turns_done N s + commits es)%nat.
Proof.
  intros Hes. revert s. induction Hes as [|e es He _ IH]; intros s Hinv.
  - split; [done|]. unfold commits. simpl. lia.
  - destruct (handle_game_inv N e s He Hinv) as [Hinv' Hturns].
    destruct (IH (handle random e s) Hinv') as [Hinv'' Hturns'].
    split; [done|]. change (run random (e :: es) s) with (run random es (handle random e s)).
    rewrite Hturns', Hturns. unfold commits. simpl. destruct (is_commit e); simpl; lia.
Qed.

Lemma setNumberOfPlayers_game_inv (N : nat) (s : state) :
  (1 ≤ N)%nat →
  game_inv N (setNumberOfPlayers random N s)
  ∧ turns_done N (setNumberOfPlayers random N s) = 0%nat.
Proof.
  intros HN. unfold game_inv, turns_done.
  change (numPlayers (setNumberOfPlayers random N s)) with N.
  change (scoreboards (setNumberOfPlayers random N s)) with (replicate N new_scoreboard).
  change (currentPlayer (setNumberOfPlayers random N s)) with 0%nat.
  change (currentRound (setNumberOfPlayers random N s)) with 1%nat.
  change (gameMode (setNumberOfPlayers random N s)) with rolling.
  rewrite length_replicate. unfold MAX_TURNS. split_and!; try done; try lia.
  split; [done|lia].
Qed.

(** C2: in a game of [N] players (any [N] from 1 on, so for 1 to 9), the
    page is in game-over mode exactly when [N] times 13 categories have been
    committed since the game started, whatever else happened in between, and
    never earlier; the advance increments the player index, wraps it to 0 and
    increments the round when it passes [N - 1], and ends the game exactly
    when the round exceeds 13. *)
Theorem game_over_after_all_turns (N : nat) :
  (1 ≤ N)%nat →
  (∀ s0 es, Forall in_game es →
     (gameMode (run random es (setNumberOfPlayers random N s0)) = gameOver
      ↔ (N * 13 ≤ commits es)%nat)
     ∧ turns_done N (run random es (setNumberOfPlayers random N s0)) = commits es)
  ∧ (∀ s, numPlayers s = N →
       ((S (currentPlayer s) < N)%nat →
          currentPlayer (nextPlayerOrRound random s) = S (currentPlayer s)
          ∧ currentRound (nextPlayerOrRound random s) = currentRound s)
       ∧ ((N ≤ S (currentPlayer s))%nat →
          currentPlayer (nextPlayerOrRound random s) = 0%nat
          ∧ currentRound (nextPlayerOrRound random s) = S (currentRound s))
       ∧ (gameMode (nextPlayerOrRound random s) = gameOver
          ↔ (13 < currentRound (nextPlayerOrRound random s))%nat)).
Proof.
  intros HN. split.
  - intros s0 es Hes.
    destruct (setNumberOfPlayers_game_inv N s0 HN) as [Hinv0 Hturns0].
    destruct (run_game_inv N es _ Hes Hinv0) as [Hinv Hturns].
    rewrite Hturns0 in Hturns. simpl in Hturns. split; [|done].
    destruct Hinv as (_ & _ & Hp & Hr & ->). rewrite <- Hturns.
    unfold turns_done, MAX_TURNS. split; intros H; nia.
  - intros s Hs.
    destruct (nextPlayerOrRound_fields s) as (_ & _ & Hp & Hr & Hm).
    rewrite Hs in Hp, Hr. split_and!.
    + intros Hlt. rewrite Hp, Hr. by rewrite bool_decide_eq_false_2 by lia.
    + intros Hge. rewrite Hp, Hr. by rewrite bool_decide_eq_true_2 by lia.
    + exact Hm.
Qed.

End Game.

(** Two players: the game is over after the 26th commit and not after the
    25th. *)
Example two_players_26_commits :
  gameMode (run sample_random (replicate 26 (SelectScoreCategory Chance false))
              (setNumberOfPlayers sample_random 2 initial_state)) = gameOver
  ∧ gameMode (run sample_random (replicate 25 (SelectScoreCategory Chance false))
                (setNumberOfPlayers sample_random 2 initial_state)) = rolling.
Proof. split; vm_compute; reflexivity. Qed.

(** ** Committing a score *)

Lemma sb_get_set_eq (sb : scoreboard) (cat : category) (v : option Z) :
  sb_get (sb_set sb cat v) cat = v.
Proof. by destruct cat. Qed.

Lemma sb_get_set_ne (sb : scoreboard) (cat cat' : category) (v : option Z) :
  cat ≠ cat' → sb_get (sb_set sb cat v) cat' = sb_get sb cat'.
Proof. by destruct cat, cat'. Qed.

Lemma elem_of_catMap (cat : category) : cat ∈ catMap.
Proof. apply list_elem_of_In. destruct cat; simpl; tauto. Qed.

(** The rows of the score table: a category is offered exactly when its
    entry is [null], and shown as used, with its score, otherwise. *)
Lemma score_rows (possible : gmap string Z) (sb : scoreboard) (cat : category) :
  (sb_get sb cat = None ↔ ∃ v, Offer cat v ∈ score_row possible sb <$> catMap)
  ∧ (∀ v, sb_get sb cat = Some v ↔ Used cat v ∈ score_row possible sb <$> catMap).
Proof.
  split; [|intros v]; split.
  - intros Hnull. exists (possible_at possible cat). apply list_elem_of_fmap.
    exists cat. split; [|apply elem_of_catMap]. unfold score_row. by rewrite Hnull.
  - intros (v & (c & Hrow & _)%list_elem_of_fmap). unfold score_row in Hrow.
    destruct (sb_get sb c) eqn:Hc; [done|]. by injection Hrow as -> _.
  - intros Hset. apply list_elem_of_fmap.
    exists cat. split; [|apply elem_of_catMap]. unfold score_row. by rewrite Hset.
  - intros (c & Hrow & _)%list_elem_of_fmap. unfold score_row in Hrow.
    destruct (sb_get sb c) eqn:Hc; [|done]. by injection Hrow as -> ->.
Qed.

(** What a commit does, for a player that has a scoreboard. *)
Lemma commit_step (s : state) (cat : category) (vals : list Z) (player : nat)
    (forceZero : bool) (sb : scoreboard) :
  scoreboards s !! player = Some sb →
  ∃ s' v, applyScoreToCategory cat vals player forceZero s = Some s'
    ∧ calculatePossibleScores vals !! key cat = Some v
    ∧ entry s' player cat = Some (Some (if forceZero then 0 else v))
    ∧ (∀ q c, (q, c) ≠ (player, cat) → entry s' q c = entry s q c)
    ∧ s' = set_scoreboards (scoreboards s') s.
Proof.
  intros Hsb. destruct (possible_lookup_key vals cat) as [v Hv].
  exists (set_scoreboards
            (<[player := sb_set sb cat (Some (if forceZero then 0 else v))]> (scoreboards s)) s).
  exists v. pose proof (lookup_lt_Some _ _ _ Hsb) as Hlt. split_and!; try done.
  - unfold applyScoreToCategory, possible_at. rewrite Hsb, Hv. by destruct forceZero.
  - unfold entry. simpl. rewrite list_lookup_insert_eq by done. simpl.
    by rewrite sb_get_set_eq.
  - intros q c Hne. unfold entry. simpl.
    destruct (decide (q = player)) as [->|Hq].
    + rewrite list_lookup_insert_eq, Hsb by done. simpl.
      rewrite sb_get_set_ne; [done|]. congruence.
    + by rewrite list_lookup_insert_ne.
Qed.

(** The claim of C1 fails: with the twos of the only player set to 6,
    committing the twos again is not rejected; the entry is overwritten
    with 0, and the handler goes on to the next round. *)
Lemma recommit_overwrites :
  entry twos_taken 0 Twos = Some (Some 6)
  ∧ (∃ s', applyScoreToCategory Twos (diceValues twos_taken) 0 true twos_taken = Some s'
           ∧ entry s' 0 Twos = Some (Some 0))
  ∧ entry (selectScoreCategory sample_random Twos true twos_taken) 0 Twos = Some (Some 0)
  ∧ currentRound (selectScoreCategory sample_random Twos true twos_taken)
    = S (currentRound twos_taken).
Proof. split_and!; [|eexists; split|..]; vm_compute; reflexivity. Qed.

(** C1, amended: a commit is never rejected.  For every player with a
    scoreboard, [applyScoreToCategory] writes the entry of the category, 0
    when zero is forced and else the possible score of the dice, whether or
    not the entry was set; it changes no other entry and nothing else of the
    state.  A set entry is protected by the score-selection overlay only,
    which offers the two commit buttons exactly for the categories of the
    current player whose entry is [null]. *)
Theorem commit_overwrites (s : state) (cat : category) (vals : list Z) (player : nat)
    (forceZero : bool) :
  is_Some (scoreboards s !! player) →
  (∃ s' v, applyScoreToCategory cat vals player forceZero s = Some s'
      ∧ calculatePossibleScores vals !! key cat = Some v
      ∧ entry s' player cat = Some (Some (if forceZero then 0 else v))
      ∧ (∀ q c, (q, c) ≠ (player, cat) → entry s' q c = entry s q c)
      ∧ s' = set_scoreboards (scoreboards s') s)
  ∧ (∀ s', openScoreSelectionOverlay s = Some s' →
       ∃ sb rows, scoreboards s !! currentPlayer s = Some sb
         ∧ overlayContent s' = ScoreTable (currentPlayer s) (diceValues s) rows
         ∧ scoreboards s' = scoreboards s
         ∧ ∀ c, (sb_get sb c = None ↔ ∃ v, Offer c v ∈ rows)
                ∧ (∀ v, sb_get sb c = Some v ↔ Used c v ∈ rows)).
Proof.
  intros [sb Hsb]. split; [by apply commit_step with (sb := sb)|].
  intros s' Hopen. unfold openScoreSelectionOverlay in Hopen.
  destruct (scoreboards s !! currentPlayer s) as [sb'|] eqn:Hcur; [|done].
  injection Hopen as <-. exists sb'. eexists. split_and!; try reflexivity.
  intros c. apply score_rows.
Qed.

(** ** Reachable states *)

Section Reachable.

Variable random : nat → Q.

Lemma well_formed_beginPlayerTurn (s : state) :
  (isAnimating s = false → shake s = None) → well_formed (beginPlayerTurn random s).
Proof. intros Hanim. split_and!; [reflexivity..|exact Hanim]. Qed.

Lemma roll_loop_lengths (idx : list nat) (s : state) :
  diceKept (foldl (roll_die random) s idx) = diceKept s
  ∧ length (diceValues (foldl (roll_die random) s idx)) = length (diceValues s).
Proof.
  revert s. induction idx as [|i idx IH]; intros s; [done|].
  cbn [foldl]. destruct (IH (roll_die random s i)) as [-> ->].
  by rewrite roll_die_kept, roll_die_length.
Qed.

Lemma well_formed_rollDice (s : state) : well_formed s → well_formed (rollDice random s).
Proof.
  intros (Hv & Hk & Hanim).
  destruct (roll_loop_lengths (seq 0 NUM_DICE) s) as (Hk' & Hv').
  unfold well_formed, rollDice. rewrite Hk', Hv'. split_and!; try done.
  by destruct (roll_loop_shape random (seq 0 NUM_DICE) s) as (vs & d & ->).
Qed.

Lemma well_formed_nextPlayerOrRound (s : state) :
  well_formed s → well_formed (nextPlayerOrRound random s).
Proof.
  intros Hs. pose proof Hs as (Hv & Hk & Hanim).
  unfold nextPlayerOrRound. cbv zeta.
  repeat case_bool_decide; first [exact Hs | by apply well_formed_beginPlayerTurn].
Qed.

(** Every event keeps the turn state well formed. *)
Lemma well_formed_handle (e : event) (s : state) :
  well_formed s → well_formed (handle random e s).
Proof.
  intros Hs. pose proof Hs as (Hv & Hk & Hanim).
  destruct e as [k|hit| | | | |n|cat forceZero|]; cbn [handle]; try exact Hs.
  - unfold on_keydown, animateCupShake.
    destruct (bool_decide (gameMode s = rolling)); [|done].
    destruct (isAnimating s) eqn:Ha; [done|]. cbn [negb andb].
    repeat case_bool_decide; try done.
    destruct (openScoreSelectionOverlay_shape
                (set_gameMode scoreSelection (set_turnEnded true s))) as [->|[c ->]];
      cbn [default]; split_and!; try done; simpl; by rewrite Ha.
  - unfold on_mousedown. repeat case_match; try done.
    split_and!; try done. cbn [diceKept set_diceKept]. by rewrite length_alter.
  - destruct (shake s) as [waited|] eqn:Hw;
      [|unfold resumeCupShake; by rewrite Hw].
    assert (isAnimating s = true) as Ha.
    { destruct (isAnimating s); [done|]. by specialize (Hanim eq_refl). }
    destruct (resumeCupShake_shape random s) as (sh & an & s0 & Hs0 & -> & Han).
    assert (well_formed s0) as (Hv' & Hk' & _).
    { destruct Hs0 as [->| ->]; [done|by apply well_formed_rollDice]. }
    split_and!; try done. cbn [isAnimating shake set_shake set_isAnimating].
    intros ->. destruct Han as [Han|[_ ->]]; [congruence|done].
  - unfold gameLoop, openFinalScoresOverlay. by repeat case_match.
  - by apply well_formed_beginPlayerTurn.
  - unfold selectScoreCategory, applyScoreToCategory.
    destruct (scoreboards s !! currentPlayer s); [|done].
    destruct forceZero; cbn [mbind option_bind]; by apply well_formed_nextPlayerOrRound.
Qed.

(** In every run from the initial state there are five dice and five kept
    flags, and [isAnimating] is set while a cup shake is suspended. *)
Lemma well_formed_run (es : list event) (s : state) :
  well_formed s → well_formed (run random es s).
Proof.
  revert s. induction es as [|e es IH]; intros s Hs; [done|].
  apply (IH (handle random e s)). by apply well_formed_handle.
Qed.

Lemma well_formed_reachable (es : list event) : well_formed (run random es initial_state).
Proof. apply well_formed_run. by split_and!. Qed.

End Reachable.

(** ** The scoring examples of the specification *)

Example five_ones :
  calculatePossibleScores [1; 1; 1; 1; 1] !! "yahtzee"%string = Some 50
  ∧ calculatePossibleScores [1; 1; 1; 1; 1] !! "three_of_a_kind"%string = Some 5
  ∧ calculatePossibleScores [1; 1; 1; 1; 1] !! "four_of_a_kind"%string = Some 5
  ∧ calculatePossibleScores [1; 1; 1; 1; 1] !! "full_house"%string = Some 0
  ∧ calculatePossibleScores [1; 1; 1; 1; 1] !! "chance"%string = Some 5.
Proof. split_and!; vm_compute; reflexivity. Qed.

Example one_to_five :
  calculatePossibleScores [1; 2; 3; 4; 5] !! "small_straight"%string = Some 30
  ∧ calculatePossibleScores [1; 2; 3; 4; 5] !! "large_straight"%string = Some 40
  ∧ calculatePossibleScores [1; 2; 3; 4; 5] !! "chance"%string = Some 15.
Proof. split_and!; vm_compute; reflexivity. Qed.

Example twos_and_threes :
  calculatePossibleScores [2; 2; 3; 3; 3] !! "full_house"%string = Some 25
  ∧ calculatePossibleScores [2; 2; 3; 3; 3] !! "three_of_a_kind"%string = Some 13
  ∧ calculatePossibleScores [2; 2; 3; 3; 3] !! "four_of_a_kind"%string = Some 0.
Proof. split_and!; vm_compute; reflexivity. Qed.

(** ** Runs through the overlay *)

Section Overlay.

Variable random : nat → Q.

Lemma offers_row (possible : gmap string Z) (sb : scoreboard) (cat : category) :
  existsb (offers cat) (score_row possible sb <$> catMap) = true → sb_get sb cat = None.
Proof.
  intros (r & Hr & Hoff)%existsb_exists. apply score_rows with (possible := possible).
  destruct r as [c v|c v]; [done|]. apply bool_decide_eq_true in Hoff as ->.
  exists v. by apply list_elem_of_In.
Qed.

Lemma overlay_nextPlayerOrRound (s : state) :
  overlayActive (nextPlayerOrRound random s) = overlayActive s.
Proof. unfold nextPlayerOrRound. cbv zeta. by repeat case_bool_decide. Qed.

(** Every offered event keeps the score table, while shown, up to date. *)
Lemma table_current_handle (e : event) (s : state) :
  table_current s → table_current (handle random e s).
Proof.
  intros Hs. destruct e as [k|hit| | | | |n|cat forceZero|]; cbn [handle]; try exact Hs.
  - unfold on_keydown, animateCupShake.
    destruct (bool_decide (gameMode s = rolling)); [|done].
    destruct (isAnimating s); [done|]. cbn [negb andb].
    repeat case_bool_decide; try done.
    unfold openScoreSelectionOverlay. cbn [scoreboards currentPlayer set_gameMode set_turnEnded].
    destruct (scoreboards s !! currentPlayer s) as [sb|] eqn:Hsb; cbn [mbind option_bind default];
      [|exact Hs].
    intros _ player dice rows [= <- <- <-]. split; [done|]. by exists sb.
  - unfold on_mousedown. by repeat case_match.
  - destruct (resumeCupShake_shape random s) as (sh & an & s0 & [->| ->] & -> & _); [done|].
    by destruct (rollDice_shape random s) as (vs & d & ->).
  - unfold gameLoop, openFinalScoresOverlay. by repeat case_match.
  - by intros Hactive.
  - unfold selectScoreCategory. destruct (applyScoreToCategory _ _ _ _ _); [|done].
    intros Hactive. by rewrite overlay_nextPlayerOrRound in Hactive.
  - by intros _ player dice rows.
Qed.

Lemma entry_nextPlayerOrRound (s : state) (q : nat) (c : category) :
  entry (nextPlayerOrRound random s) q c = entry s q c.
Proof.
  unfold entry. by destruct (nextPlayerOrRound_fields random s) as (_ & -> & _).
Qed.

(** An offered event other than the start of a new game leaves every set
    entry as it is. *)
Lemma set_entry_kept (e : event) (s : state) (q : nat) (c : category) (v : Z) :
  table_current s → offered e s = true → (∀ n, e ≠ SetNumberOfPlayers n) →
  entry s q c = Some (Some v) → entry (handle random e s) q c = Some (Some v).
Proof.
  intros Hs Hoff Hgame Hset. destruct e as [k|hit| | | | |n|cat forceZero|]; try done.
  - destruct (handle_not_commit random (Keydown k) s I eq_refl) as (_ & Hsb & _).
    unfold entry. by rewrite Hsb.
  - destruct (handle_not_commit random (Mousedown hit) s I eq_refl) as (_ & Hsb & _).
    unfold entry. by rewrite Hsb.
  - destruct (handle_not_commit random AnimationFrame s I eq_refl) as (_ & Hsb & _).
    unfold entry. by rewrite Hsb.
  - destruct (handle_not_commit random GameLoop s I eq_refl) as (_ & Hsb & _).
    unfold entry. by rewrite Hsb.
  - by destruct (Hgame n).
  - cbn [offered] in Hoff. apply andb_true_iff in Hoff as [Hactive Hoff].
    destruct (overlayContent s) as [|player dice rows|] eqn:Hcontent; try done.
    destruct (Hs Hactive player dice rows Hcontent) as (-> & sb & Hsb & ->).
    apply offers_row in Hoff.
    destruct (commit_step s cat (diceValues s) (currentPlayer s) forceZero sb Hsb)
      as (s' & w & Happly & _ & _ & Hframe & _).
    cbn [handle]. unfold selectScoreCategory. rewrite Happly, entry_nextPlayerOrRound.
    change (entry (set_overlayActive false s') q c) with (entry s' q c).
    rewrite Hframe; [done|]. intros [= -> ->].
    unfold entry in Hset. rewrite Hsb in Hset. simpl in Hset. congruence.
Qed.

(** Within a game, in a run through the overlay, an entry that is set keeps
    its value: the buttons the overlay offers never commit a used
    category. *)
Lemma offered_run_write_once (es : list event) (s : state) (q : nat) (c : category) (v : Z) :
  table_current s → Forall (λ e, ∀ n, e ≠ SetNumberOfPlayers n) es →
  entry s q c = Some (Some v) → entry (offered_run random es s) q c = Some (Some v).
Proof.
  intros Hs Hes. revert s Hs. induction Hes as [|e es He _ IH]; intros s Hs Hset; [done|].
  unfold offered_run. cbn [foldl]. fold (offered_run random es).
  destruct (offered e s) eqn:Hoff; [|by apply IH].
  apply IH; [by apply table_current_handle|by apply set_entry_kept].
Qed.

Lemma table_current_run (es : list event) (s : state) :
  table_current s → table_current (offered_run random es s).
Proof.
  revert s. induction es as [|e es IH]; intros s Hs; [done|].
  unfold offered_run. cbn [foldl]. fold (offered_run random es).
  destruct (offered e s); apply IH; [by apply table_current_handle|done].
Qed.

(** From the start of the page on: once a run through the overlay has set
    an entry, no continuation within the same game changes it. *)
Lemma offered_run_write_once_reachable (es es' : list event) (q : nat) (c : category)
    (v : Z) :
  Forall (λ e, ∀ n, e ≠ SetNumberOfPlayers n) es' →
  entry (offered_run random es initial_state) q c = Some (Some v) →
  entry (offered_run random (es ++ es') initial_state) q c = Some (Some v).
Proof.
  intros Hes Hset. unfold offered_run. rewrite foldl_app. fold (offered_run random es).
  fold (offered_run random es'). apply offered_run_write_once; [|done..].
  apply table_current_run. by intros [=].
Qed.

End Overlay.

(** ** The theorems at sample inputs *)

Lemma turn_start_state_witness :
  (∀ n, (0 <= sample_random n < 1)%Q)
  ∧ fresh_turn sample_random 0 (setNumberOfPlayers sample_random 2 initial_state)
  ∧ diceValues (setNumberOfPlayers sample_random 2 initial_state) = [2; 6; 2; 6; 2].
Proof.
  split; [exact sample_random_range|]. split; [|vm_compute; reflexivity].
  exact (proj1 (turn_start_state sample_random sample_random_range) 2%nat initial_state).
Defined.

Lemma second_die_kept_loaded_drawable : scene_drawable second_die_kept_loaded.
Proof.
  assert (diceValues second_die_kept_loaded = [2; 6; 2; 6; 2]) as Hvals
    by (vm_compute; reflexivity).
  split_and!; try (vm_compute; reflexivity).
  unfold dice_ready. rewrite Hvals.
  repeat (apply Forall_cons_2; [lia|]). apply Forall_nil_2.
Defined.

Lemma reroll_changes_only_unkept_dice_witness :
  (∀ n, (0 <= sample_random n < 1)%Q)
  ∧ length (diceValues second_die_kept_loaded) = NUM_DICE
  ∧ gameMode second_die_kept_loaded = rolling
  ∧ isAnimating second_die_kept_loaded = false
  ∧ shake second_die_kept_loaded = None
  ∧ 0 < rollsLeft second_die_kept_loaded
  ∧ scene_drawable second_die_kept_loaded
  ∧ diceKept second_die_kept_loaded = [false; true; false; false; false]
  ∧ diceValues second_die_kept_loaded = [2; 6; 2; 6; 2]
  ∧ diceValues (rollDice sample_random second_die_kept_loaded) = [6; 6; 2; 6; 2]
  ∧ only_unkept_rerolled sample_random second_die_kept_loaded
      (rollDice sample_random second_die_kept_loaded)
  ∧ run sample_random reroll_events second_die_kept_loaded
    = set_rollsLeft (rollsLeft second_die_kept_loaded - 1)
        (rollDice sample_random second_die_kept_loaded)
  ∧ only_unkept_rerolled sample_random second_die_kept_loaded
      (run sample_random reroll_events second_die_kept_loaded).
Proof.
  assert (length (diceValues second_die_kept_loaded) = NUM_DICE) as Hlen
    by (vm_compute; reflexivity).
  assert (gameMode second_die_kept_loaded = rolling) as Hmode by (vm_compute; reflexivity).
  assert (isAnimating second_die_kept_loaded = false) as Hanim by (vm_compute; reflexivity).
  assert (shake second_die_kept_loaded = None) as Hshake by (vm_compute; reflexivity).
  assert (0 < rollsLeft second_die_kept_loaded) as Hrolls by (vm_compute; reflexivity).
  pose proof second_die_kept_loaded_drawable as Hdraw.
  destruct (reroll_changes_only_unkept_dice sample_random sample_random_range
              second_die_kept_loaded Hlen) as (Hroll & _ & Hrun & _).
  split; [exact sample_random_range|].
  do 6 (split; [assumption|]).
  do 3 (split; [vm_compute; reflexivity|]).
  split; [exact Hroll|]. exact (Hrun Hmode Hanim Hshake Hrolls Hdraw).
Defined.

Lemma game_over_after_all_turns_witness :
  (1 ≤ 2)%nat
  ∧ Forall in_game (replicate 26 (SelectScoreCategory Chance false))
  ∧ (gameMode (run sample_random (replicate 26 (SelectScoreCategory Chance false))
                 (setNumberOfPlayers sample_random 2 initial_state)) = gameOver
     ↔ (2 * 13 ≤ commits (replicate 26 (SelectScoreCategory Chance false)))%nat).
Proof.
  assert (Forall in_game (replicate 26 (SelectScoreCategory Chance false))) as Hes
    by (apply Forall_replicate; exact I).
  split; [lia|]. split; [exact Hes|].
  exact (proj1 (proj1 (game_over_after_all_turns sample_random 2 ltac:(lia))
                      initial_state _ Hes)).
Defined.

Lemma commit_overwrites_witness :
  is_Some (scoreboards twos_taken !! 0%nat)
  ∧ ∃ s' v, applyScoreToCategory Twos [2; 6; 2; 6; 2] 0 true twos_taken = Some s'
      ∧ calculatePossibleScores [2; 6; 2; 6; 2] !! key Twos = Some v
      ∧ entry s' 0 Twos = Some (Some (if true then 0 else v))
      ∧ (∀ q c, (q, c) ≠ (0%nat, Twos) → entry s' q c = entry twos_taken q c)
      ∧ s' = set_scoreboards (scoreboards s') twos_taken.
Proof.
  assert (is_Some (scoreboards twos_taken !! 0%nat)) as Hsb
    by (exists (sb_set new_scoreboard Twos (Some 6)); vm_compute; reflexivity).
  split; [exact Hsb|].
  exact (proj1 (commit_overwrites twos_taken Twos [2; 6; 2; 6; 2] 0 true Hsb)).
Defined.

(** * Further properties of the engine *)

(** ** The counts object *)

Lemma obj_get_set_eq (o : Js.int_obj) (k c : Z) : Js.obj_get (Js.obj_set o k c) k = Some c.
Proof.
  induction o as [|[k' c'] o IH]; simpl; [by rewrite Z.eqb_refl|].
  destruct (Z.eqb_spec k' k) as [->|Hne]; simpl; [by rewrite Z.eqb_refl|].
  destruct (k <? k'); simpl; [by rewrite Z.eqb_refl|].
  by destruct (Z.eqb_spec k' k).
Qed.

Lemma obj_get_set_ne (o : Js.int_obj) (k j c : Z) :
  k ≠ j → Js.obj_get (Js.obj_set o k c) j = Js.obj_get o j.
Proof.
  intros Hne. induction o as [|[k' c'] o IH]; simpl.
  - by destruct (Z.eqb_spec k j).
  - destruct (Z.eqb_spec k' k) as [->|Hk]; simpl.
    + by destruct (Z.eqb_spec k j).
    + destruct (k <? k'); simpl.
      * by destruct (Z.eqb_spec k j).
      * destruct (Z.eqb_spec k' j); [done|]. apply IH.
Qed.

Lemma keys_above_ascending (lo : Z) (o : Js.int_obj) : keys_above lo o → ascending o.
Proof. destruct o as [|[k c] o]; simpl; [done|]. by intros [_ ?]. Qed.

Lemma keys_above_set (lo : Z) (o : Js.int_obj) (k c : Z) :
  lo < k → keys_above lo o → keys_above lo (Js.obj_set o k c).
Proof.
  revert lo. induction o as [|[k' c'] o IH]; intros lo Hlo Ho; simpl; [done|].
  destruct Ho as [Hk' Ho].
  destruct (Z.eqb_spec k' k) as [->|Hne]; simpl; [done|].
  destruct (Z.ltb_spec k k'); simpl; [done|].
  split; [done|]. apply IH; [lia|done].
Qed.

Lemma ascending_set (o : Js.int_obj) (k c : Z) : ascending o → ascending (Js.obj_set o k c).
Proof.
  destruct o as [|[k' c'] o]; simpl; [done|]. intros Ho.
  destruct (Z.eqb_spec k' k) as [->|Hne]; simpl; [done|].
  destruct (Z.ltb_spec k k'); simpl; [done|].
  apply keys_above_set; [lia|done].
Qed.

Lemma keys_above_get_None (lo : Z) (o : Js.int_obj) (k : Z) :
  keys_above lo o → k ≤ lo → Js.obj_get o k = None.
Proof.
  revert lo. induction o as [|[k' c'] o IH]; intros lo Ho Hk; simpl; [done|].
  destruct Ho as [Hk' Ho]. destruct (Z.eqb_spec k' k); [lia|].
  apply (IH k'); [done|lia].
Qed.

(** In an object with ascending keys, the pairs are the successful reads. *)
Lemma elem_of_ascending (o : Js.int_obj) (k c : Z) :
  ascending o → (k, c) ∈ o ↔ Js.obj_get o k = Some c.
Proof.
  induction o as [|[k' c'] o IH]; simpl; intros Ho.
  - split; [by intros ?%elem_of_nil|done].
  - rewrite elem_of_cons. destruct (Z.eqb_spec k' k) as [->|Hne].
    + rewrite (IH (keys_above_ascending _ _ Ho)).
      rewrite (keys_above_get_None k o k Ho) by lia. naive_solver.
    + rewrite (IH (keys_above_ascending _ _ Ho)). naive_solver.
Qed.

(** Two objects with ascending keys that read the same everywhere are the
    same object. *)
Lemma ascending_ext (o1 o2 : Js.int_obj) :
  ascending o1 → ascending o2 → (∀ k, Js.obj_get o1 k = Js.obj_get o2 k) → o1 = o2.
Proof.
  revert o2. induction o1 as [|[k1 c1] o1 IH]; intros [|[k2 c2] o2] H1 H2 Hget.
  - done.
  - specialize (Hget k2). simpl in Hget. by rewrite Z.eqb_refl in Hget.
  - specialize (Hget k1). simpl in Hget. by rewrite Z.eqb_refl in Hget.
  - simpl in H1, H2. assert (k1 = k2) as ->.
    { pose proof (Hget k1) as Ha. pose proof (Hget k2) as Hb. simpl in Ha, Hb.
      rewrite Z.eqb_refl in Ha, Hb.
      destruct (Z.eqb_spec k2 k1) as [|Hne]; [done|].
      destruct (Z.eqb_spec k1 k2) as [|_]; [done|].
      destruct (Z.le_gt_cases k1 k2).
      - by rewrite (keys_above_get_None k2 o2 k1 H2) in Ha.
      - by rewrite (keys_above_get_None k1 o1 k2 H1) in Hb by lia. }
    pose proof (Hget k2) as Hc. simpl in Hc. rewrite Z.eqb_refl in Hc.
    injection Hc as ->. f_equal.
    apply IH; [by eapply keys_above_ascending..|]. intros k.
    destruct (decide (k = k2)) as [->|Hne].
    + by rewrite (keys_above_get_None k2 o1 k2 H1), (keys_above_get_None k2 o2 k2 H2).
    + specialize (Hget k). simpl in Hget. by destruct (Z.eqb_spec k2 k).
Qed.

Lemma multiplicity_cons (v x : Z) (vals : list Z) :
  multiplicity v (x :: vals)
  = (if decide (x = v) then S (multiplicity v vals) else multiplicity v vals).
Proof. unfold multiplicity. rewrite filter_cons. by case_decide. Qed.

Lemma multiplicity_zero (v : Z) (vals : list Z) : multiplicity v vals = 0%nat ↔ v ∉ vals.
Proof.
  induction vals as [|x vals IH]; [split; [intros _; apply not_elem_of_nil|done]|].
  rewrite multiplicity_cons, not_elem_of_cons. case_decide as Hx.
  - split; [done|]. intros [Hne _]. by destruct Hne.
  - rewrite IH. split; [by split|by intros [_ ?]].
Qed.

(** The counting loop, started from any object. *)
Lemma count_loop (vals : list Z) (o : Js.int_obj) (v : Z) :
  Js.obj_get
    (foldl (λ counts x, Js.obj_set counts x (Js.or_zero (Js.obj_get counts x) + 1)) o vals) v
  = match Js.obj_get o v with
    | Some c => Some (c + Z.of_nat (multiplicity v vals))
    | None => if decide (multiplicity v vals = 0%nat) then None
              else Some (Z.of_nat (multiplicity v vals))
    end.
Proof.
  revert o. induction vals as [|x vals IH]; intros o.
  - unfold multiplicity. simpl. destruct (Js.obj_get o v); [f_equal; lia|done].
  - cbn [foldl]. rewrite IH, multiplicity_cons. destruct (decide (x = v)) as [->|Hx].
    + rewrite obj_get_set_eq. unfold Js.or_zero.
      destruct (Js.obj_get o v); simpl; [f_equal; lia|].
      f_equal. lia.
    + by rewrite obj_get_set_ne.
Qed.

Lemma count_loop_ascending (vals : list Z) (o : Js.int_obj) :
  ascending o →
  ascending (foldl (λ counts x, Js.obj_set counts x (Js.or_zero (Js.obj_get counts x) + 1))
               o vals).
Proof.
  revert o. induction vals as [|x vals IH]; intros o Ho; [done|].
  cbn [foldl]. by apply IH, ascending_set.
Qed.

Lemma count_faces_get (vals : list Z) (v : Z) :
  Js.obj_get (count_faces vals) v
  = (if decide (multiplicity v vals = 0%nat) then None
     else Some (Z.of_nat (multiplicity v vals))).
Proof. unfold count_faces. by rewrite count_loop. Qed.

Lemma count_faces_ascending (vals : list Z) : ascending (count_faces vals).
Proof. by apply count_loop_ascending. Qed.

Lemma elem_of_count_values (vals : list Z) (c : Z) :
  c ∈ Js.values (count_faces vals)
  ↔ ∃ v, v ∈ vals ∧ c = Z.of_nat (multiplicity v vals).
Proof.
  unfold Js.values. rewrite list_elem_of_fmap. split.
  - intros ([k c'] & -> & Hin). simpl.
    apply elem_of_ascending in Hin; [|apply count_faces_ascending].
    rewrite count_faces_get in Hin. case_decide as Hm; [done|].
    exists k. split; [|congruence].
    destruct (decide (k ∈ vals)) as [|Hk]; [done|]. destruct Hm. by apply multiplicity_zero.
  - intros (v & Hv & ->). exists (v, Z.of_nat (multiplicity v vals)). split; [done|].
    apply elem_of_ascending; [apply count_faces_ascending|].
    rewrite count_faces_get. rewrite decide_False; [done|]. by intros Hz%multiplicity_zero.
Qed.

Lemma keys_above_bounds (lo : Z) (o : Js.int_obj) :
  keys_above lo o → NoDup (Js.keys o) ∧ ∀ k, k ∈ Js.keys o → lo < k.
Proof.
  revert lo. induction o as [|[k c] o IH]; intros lo; simpl.
  - intros _. split; [constructor|]. by intros k ?%elem_of_nil.
  - intros [Hlo Ho]. destruct (IH k Ho) as [Hnd Hgt]. split.
    + apply NoDup_cons. split; [|done]. intros Hk%Hgt. lia.
    + intros j [->|Hj%Hgt]%elem_of_cons; lia.
Qed.

Lemma ascending_NoDup (o : Js.int_obj) : ascending o → NoDup (Js.keys o).
Proof.
  destruct o as [|[k c] o]; simpl; [constructor|]. intros Ho.
  destruct (keys_above_bounds k o Ho) as [Hnd Hgt].
  apply NoDup_cons. split; [|done]. intros Hk%Hgt. lia.
Qed.

Lemma elem_of_keys (o : Js.int_obj) (k : Z) :
  ascending o → k ∈ Js.keys o ↔ is_Some (Js.obj_get o k).
Proof.
  intros Ho. unfold Js.keys. rewrite list_elem_of_fmap. split.
  - intros ([k' c] & -> & Hin). exists c. by apply elem_of_ascending.
  - intros [c Hc]. exists (k, c). split; [done|]. by apply elem_of_ascending.
Qed.

Lemma counts_keys (vals : list Z) :
  (∀ v, v ∈ vals → Js.obj_get (count_faces vals) v = Some (Z.of_nat (multiplicity v vals)))
  ∧ (∀ v, v ∉ vals → Js.obj_get (count_faces vals) v = None)
  ∧ (∀ v, v ∈ Js.keys (count_faces vals) ↔ v ∈ vals)
  ∧ NoDup (Js.keys (count_faces vals))
  ∧ ascending (count_faces vals)
  ∧ length (Js.keys (count_faces vals)) = size (distinct vals).
Proof.
  pose proof (count_faces_ascending vals) as Hasc.
  assert (∀ v, v ∈ Js.keys (count_faces vals) ↔ v ∈ vals) as Hkeys.
  { intros v. rewrite elem_of_keys, count_faces_get by done.
    destruct (decide (v ∈ vals)) as [Hv|Hv].
    - rewrite decide_False; [by split|]. by intros Hz%multiplicity_zero.
    - rewrite decide_True by by apply multiplicity_zero. split; [by intros [? ?]|done]. }
  split_and!; try done.
  - intros v Hv. rewrite count_faces_get, decide_False; [done|].
    by intros Hz%multiplicity_zero.
  - intros v Hv. rewrite count_faces_get, decide_True; [done|]. by apply multiplicity_zero.
  - by apply ascending_NoDup.
  - unfold distinct. rewrite <- (size_list_to_set (C := gset Z) (Js.keys (count_faces vals)))
      by by apply ascending_NoDup.
    f_equal. apply set_eq. intros v. by rewrite !elem_of_list_to_set, Hkeys.
Qed.

(** X2: the counts object of [calculatePossibleScores] maps every value
    that occurs among the dice to the number of its occurrences and has no
    other key; its keys are distinct and ascending, one for each distinct
    value. *)
Theorem counts_object_counts (vals : list Z) :
  (∀ v, v ∈ vals → Js.obj_get (count_faces vals) v = Some (Z.of_nat (multiplicity v vals)))
  ∧ (∀ v, v ∉ vals → Js.obj_get (count_faces vals) v = None)
  ∧ (∀ v, v ∈ Js.keys (count_faces vals) ↔ v ∈ vals)
  ∧ NoDup (Js.keys (count_faces vals))
  ∧ ascending (count_faces vals)
  ∧ length (Js.keys (count_faces vals)) = size (distinct vals).
Proof. exact (counts_keys vals). Qed.

(** ** Upper section *)

Lemma sumIfMatch_times (vals : list Z) (num : Z) :
  sumIfMatch vals num = num * Z.of_nat (multiplicity num vals).
Proof.
  induction vals as [|x vals IH];
    [unfold sumIfMatch, Js.reduce_add, multiplicity; simpl; lia|].
  rewrite sumIfMatch_cons, multiplicity_cons, IH. case_decide; subst; lia.
Qed.

(** X1: an upper-section score is the face value times the number of dice
    showing it, for any dice; it is 0 when no die shows the face. *)
Theorem upper_score_is_face_times_count (vals : list Z) (num : Z) :
  sumIfMatch vals num = num * Z.of_nat (multiplicity num vals)
  ∧ (num ∉ vals → sumIfMatch vals num = 0)
  ∧ (0 < num → num ∈ vals → num ≤ sumIfMatch vals num).
Proof.
  rewrite sumIfMatch_times. split_and!; [done| |].
  - intros Hnone%multiplicity_zero. rewrite Hnone. lia.
  - intros Hpos Hin. assert (multiplicity num vals ≠ 0%nat) by by intros ?%multiplicity_zero.
    nia.
Qed.

(** ** Three and four of a kind *)

Lemma sumAll_sum_of (vals : list Z) : sumAll vals = sum_of vals.
Proof.
  unfold sumAll, sum_of. induction vals as [|x vals IH]; [done|].
  rewrite reduce_add_cons, IH. done.
Qed.

(** A test on the counts holds of some count exactly when it holds of the
    number of occurrences of some die value. *)
Lemma some_count (P : Z → bool) (vals : list Z) :
  existsb P (Js.values (count_faces vals)) = true
  ↔ ∃ v, v ∈ vals ∧ P (Z.of_nat (multiplicity v vals)) = true.
Proof.
  rewrite existsb_exists. split.
  - intros (c & (v & Hv & ->)%list_elem_of_In%elem_of_count_values & HP). eauto.
  - intros (v & Hv & HP). exists (Z.of_nat (multiplicity v vals)). split; [|done].
    apply list_elem_of_In, elem_of_count_values. eauto.
Qed.

Lemma has_at_least (n : Z) (vals : list Z) :
  existsb (λ c, n <=? c) (Js.values (count_faces vals)) = true
  ↔ ∃ v, v ∈ vals ∧ n ≤ Z.of_nat (multiplicity v vals).
Proof. rewrite some_count. by setoid_rewrite Z.leb_le. Qed.

(** X3: for any dice, the three-of-a-kind score is the sum of all dice when
    some value occurs at least three times and 0 otherwise; the same holds
    of four of a kind with four occurrences. *)
Theorem of_a_kind_scores (vals : list Z) :
  ((calculatePossibleScores vals !! "three_of_a_kind"%string = Some (sum_of vals)
    ∧ ∃ v, (3 ≤ multiplicity v vals)%nat)
   ∨ (calculatePossibleScores vals !! "three_of_a_kind"%string = Some 0
      ∧ ∀ v, (multiplicity v vals < 3)%nat))
  ∧ ((calculatePossibleScores vals !! "four_of_a_kind"%string = Some (sum_of vals)
      ∧ ∃ v, (4 ≤ multiplicity v vals)%nat)
     ∨ (calculatePossibleScores vals !! "four_of_a_kind"%string = Some 0
        ∧ ∀ v, (multiplicity v vals < 4)%nat)).
Proof.
  rewrite possible_three_of_a_kind, possible_four_of_a_kind, sumAll_sum_of.
  assert (∀ n : nat, (0 < n)%nat →
    (existsb (λ c, Z.of_nat n <=? c) (Js.values (count_faces vals)) = true
     ∧ ∃ v, (n ≤ multiplicity v vals)%nat)
    ∨ (existsb (λ c, Z.of_nat n <=? c) (Js.values (count_faces vals)) = false
       ∧ ∀ v, (multiplicity v vals < n)%nat)) as Hkind.
  { intros n Hn.
    destruct (existsb _ _) eqn:Hex; [left|right]; (split; [done|]).
    - apply has_at_least in Hex as (v & _ & Hv). exists v. lia.
    - intros v. destruct (decide (multiplicity v vals < n)%nat) as [|Hge]; [done|].
      assert (existsb (λ c, Z.of_nat n <=? c) (Js.values (count_faces vals)) = true)
        as Htrue; [|congruence].
      apply has_at_least. exists v. split; [|lia].
      destruct (decide (v ∈ vals)) as [|Hv%multiplicity_zero]; [done|lia]. }
  pose proof (Hkind 3%nat ltac:(lia)) as H3. change (Z.of_nat 3) with 3 in H3.
  pose proof (Hkind 4%nat ltac:(lia)) as H4. change (Z.of_nat 4) with 4 in H4.
  split.
  - destruct H3 as [[-> ?]|[-> ?]]; [left|right]; done.
  - destruct H4 as [[-> ?]|[-> ?]]; [left|right]; done.
Qed.

(** ** How the categories relate *)

Lemma isFullHouse_counts (counts : Js.int_obj) :
  isFullHouse counts = true → length (Js.keys counts) = 2%nat ∧ Js.values counts ≡ₚ [2; 3].
Proof.
  unfold isFullHouse. cbv zeta. rewrite !andb_true_iff, !bool_decide_eq_true.
  intros [[Hlen H0] H1]. split; [done|].
  assert (length (Js.sort (Js.values counts)) = 2%nat) as Hsorted.
  { rewrite sort_perm. unfold Js.values, Js.keys in *. by rewrite length_fmap in *. }
  rewrite <- (sort_perm (Js.values counts)).
  destruct (Js.sort (Js.values counts)) as [|a [|b [|c l]]]; try done.
  simpl in H0, H1. by injection H0 as ->; injection H1 as ->.
Qed.

(** X4: for any dice, a large straight is also a small straight; a yahtzee
    is also four of a kind; a non-zero four of a kind is also three of a
    kind, with the same score; and a full house scores as three of a kind but
    neither as four of a kind, yahtzee nor any straight. *)
Theorem score_relations (vals : list Z) :
  (calculatePossibleScores vals !! "large_straight"%string = Some 40 →
   calculatePossibleScores vals !! "small_straight"%string = Some 30)
  ∧ (calculatePossibleScores vals !! "yahtzee"%string = Some 50 →
     calculatePossibleScores vals !! "four_of_a_kind"%string = Some (sum_of vals))
  ∧ (∀ x, calculatePossibleScores vals !! "four_of_a_kind"%string = Some x → x ≠ 0 →
          calculatePossibleScores vals !! "three_of_a_kind"%string = Some x)
  ∧ (calculatePossibleScores vals !! "full_house"%string = Some 25 →
     calculatePossibleScores vals !! "three_of_a_kind"%string = Some (sum_of vals)
     ∧ calculatePossibleScores vals !! "four_of_a_kind"%string = Some 0
     ∧ calculatePossibleScores vals !! "yahtzee"%string = Some 0
     ∧ calculatePossibleScores vals !! "small_straight"%string = Some 0
     ∧ calculatePossibleScores vals !! "large_straight"%string = Some 0).
Proof.
  rewrite possible_large_straight, possible_small_straight, possible_yahtzee,
    possible_four_of_a_kind, possible_three_of_a_kind, possible_full_house, sumAll_sum_of.
  split_and!.
  - destruct (hasLarge _) eqn:Hlarge; [intros _|done].
    apply hasLarge_true in Hlarge.
    assert (hasSmall (Js.sort (Js.set_spread vals)) = true) as ->; [|done].
    apply hasSmall_true. destruct Hlarge as [-> | ->]; [left|right; left]; set_solver.
  - destruct (existsb (λ c, c =? 5) _) eqn:H5; [intros _|done].
    apply some_count in H5 as (v & Hv & Hc%Z.eqb_eq).
    assert (existsb (λ c, 4 <=? c) (Js.values (count_faces vals)) = true) as ->; [|done].
    apply has_at_least. exists v. split; [done|lia].
  - intros x. destruct (existsb (λ c, 4 <=? c) _) eqn:H4; [|by intros [= <-]].
    intros [= <-] _. apply has_at_least in H4 as (v & Hv & Hc).
    assert (existsb (λ c, 3 <=? c) (Js.values (count_faces vals)) = true) as ->; [|done].
    apply has_at_least. exists v. split; [done|lia].
  - destruct (isFullHouse _) eqn:Hfh; [intros _|done].
    apply isFullHouse_counts in Hfh as [Hlen Hvalues].
    assert (∀ P, existsb P (Js.values (count_faces vals)) = P 2 || P 3) as Hex.
    { intros P. apply eq_true_iff_eq. rewrite existsb_exists, orb_true_iff. split.
      - intros (c & Hc%list_elem_of_In & HP). rewrite Hvalues in Hc.
        apply elem_of_cons in Hc as [->|Hc]; [by left|].
        apply list_elem_of_singleton in Hc as ->. by right.
      - intros [HP|HP]; [exists 2|exists 3]; (split; [|done]);
          apply list_elem_of_In; rewrite Hvalues; set_solver. }
    rewrite !Hex. simpl.
    assert (size (distinct vals) = 2%nat) as Hsize.
    { by rewrite <- (proj2 (proj2 (proj2 (proj2 (proj2 (counts_keys vals)))))). }
    assert (hasSmall (Js.sort (Js.set_spread vals)) = false) as ->.
    { apply not_true_is_false. rewrite hasSmall_true.
      intros [H|[H|H]]; apply subseteq_size in H; rewrite Hsize in H;
        vm_compute in H; lia. }
    assert (hasLarge (Js.sort (Js.set_spread vals)) = false) as ->.
    { apply not_true_is_false. rewrite hasLarge_true.
      intros [H|H]; rewrite H in Hsize; vm_compute in Hsize; lia. }
    done.
Qed.

(** ** Order of the dice *)

Lemma multiplicity_perm (v : Z) (vals vals' : list Z) :
  vals ≡ₚ vals' → multiplicity v vals = multiplicity v vals'.
Proof. intros Hp. unfold multiplicity. by rewrite Hp. Qed.

Lemma sum_of_perm (vals vals' : list Z) : vals ≡ₚ vals' → sum_of vals = sum_of vals'.
Proof. unfold sum_of. induction 1; simpl; lia. Qed.

Lemma count_faces_perm (vals vals' : list Z) :
  vals ≡ₚ vals' → count_faces vals = count_faces vals'.
Proof.
  intros Hp. apply ascending_ext; [apply count_faces_ascending..|].
  intros k. by rewrite !count_faces_get, (multiplicity_perm k _ _ Hp).
Qed.

Lemma distinct_perm (vals vals' : list Z) : vals ≡ₚ vals' → distinct vals = distinct vals'.
Proof. intros Hp. unfold distinct. apply set_eq. intros x. by rewrite !elem_of_list_to_set, Hp. Qed.

(** X5: the possible scores do not depend on the order of the dice. *)
Theorem scores_order_independent (vals vals' : list Z) :
  vals ≡ₚ vals' → calculatePossibleScores vals = calculatePossibleScores vals'.
Proof.
  intros Hp. unfold calculatePossibleScores. cbv zeta.
  rewrite !sumIfMatch_times, !sumAll_sum_of.
  rewrite (count_faces_perm _ _ Hp), (sum_of_perm _ _ Hp).
  rewrite !(multiplicity_perm _ _ _ Hp).
  assert (hasSmall (Js.sort (Js.set_spread vals)) = hasSmall (Js.sort (Js.set_spread vals')))
    as ->.
  { apply eq_true_iff_eq. by rewrite !hasSmall_true, (distinct_perm _ _ Hp). }
  assert (hasLarge (Js.sort (Js.set_spread vals)) = hasLarge (Js.sort (Js.set_spread vals')))
    as ->.
  { apply eq_true_iff_eq. by rewrite !hasLarge_true, (distinct_perm _ _ Hp). }
  done.
Qed.

Lemma scores_order_independent_witness :
  [3; 1; 3; 6; 5] ≡ₚ [1; 3; 3; 5; 6]
  ∧ calculatePossibleScores [3; 1; 3; 6; 5] = calculatePossibleScores [1; 3; 3; 5; 6].
Proof.
  assert ([3; 1; 3; 6; 5] ≡ₚ [1; 3; 3; 5; 6]) as Hp.
  { etrans; [apply Permutation_swap|]. do 3 apply Permutation_skip. apply Permutation_swap. }
  split; [exact Hp|exact (scores_order_independent _ _ Hp)].
Defined.

(** ** Input during the cup shake *)

Section ShakeInput.

Variable random : nat → Q.

Hypothesis random_range : ∀ n, (0 <= random n < 1)%Q.

(** While a cup shake is in progress on the rolling screen, keys, clicks
    and render ticks change nothing. *)
Lemma input_ignored (e : event) (s : state) :
  isAnimating s = true → gameMode s = rolling → is_input e → handle random e s = s.
Proof.
  intros Hanim Hmode He. destruct e; try done; cbn [handle].
  - unfold on_keydown. by rewrite Hanim, andb_false_r.
  - unfold on_mousedown. by rewrite Hanim, andb_false_r.
  - unfold gameLoop. rewrite Hmode. by destruct (_ || _).
Qed.

Lemma resume_mid_shake (s : state) (k : nat) :
  shake s = Some k → scene_drawable s → (S k < stepsIn + shakeFrames + stepsOut)%nat →
  shake (resumeCupShake random s) = Some (S k)
  ∧ isAnimating (resumeCupShake random s) = isAnimating s
  ∧ gameMode (resumeCupShake random s) = gameMode s
  ∧ scene_drawable (resumeCupShake random s).
Proof.
  intros Hk Hdraw Hlt. unfold resumeCupShake. rewrite Hk, !draw_succeeds by done.
  repeat case_bool_decide; try done; try lia.
  pose proof (rollDice_drawable random random_range s Hdraw) as Hdraw'.
  destruct (rollDice_shape random s) as (vs & d & Heq). rewrite Heq in *. by split_and!.
Qed.

(** Until its last frame, a cup shake goes through a run of inputs and
    frames as through the frames alone. *)
Lemma run_shake_inputs (es : list event) (s : state) (k : nat) :
  shake s = Some k → isAnimating s = true → gameMode s = rolling → scene_drawable s →
  Forall (λ e, is_input e ∨ e = AnimationFrame) es →
  (k + frames es < stepsIn + shakeFrames + stepsOut)%nat →
  run random es s = run random (replicate (frames es) AnimationFrame) s.
Proof.
  intros Hk Hanim Hmode Hdraw Hes. revert s k Hk Hanim Hmode Hdraw.
  induction Hes as [|e es He _ IH]; intros s k Hk Hanim Hmode Hdraw Hlt; [done|].
  rewrite run_cons. destruct He as [He| ->].
  - rewrite input_ignored by done.
    assert (frames (e :: es) = frames es) as Hf by by destruct e.
    rewrite Hf in *. by apply (IH s k).
  - change (frames (AnimationFrame :: es)) with (S (frames es)) in *.
    cbn [replicate]. rewrite run_cons. cbn [handle].
    destruct (resume_mid_shake s k Hk Hdraw ltac:(lia)) as (Hk' & Ha' & Hm' & Hdraw').
    apply (IH _ (S k)); [done|congruence|congruence|done|lia].
Qed.

(** X8: once the R key has started a cup shake, with both sprite sheets
    loaded and the dice showing faces, key presses, clicks and render
    ticks that arrive between its animation frames change nothing: before
    the 51st frame the dice and the kept flags are as they were, and after
    the 66th frame the state is that of one roll of the dice with one roll
    less left. *)
Theorem shake_ignores_input (s : state) (es : list event) :
  gameMode s = rolling → isAnimating s = false → shake s = None → 0 < rollsLeft s →
  scene_drawable s →
  Forall (λ e, is_input e ∨ e = AnimationFrame) es →
  ((frames es < stepsIn + shakeFrames)%nat →
     run random (Keydown "r" :: es) s
     = set_shake (Some (frames es))
         (set_rollsLeft (rollsLeft s - 1) (set_isAnimating true s)))
  ∧ (frames es = (stepsIn + shakeFrames + stepsOut - 1)%nat →
     run random (Keydown "r" :: es ++ [AnimationFrame]) s
     = set_rollsLeft (rollsLeft s - 1) (rollDice random s)).
Proof.
  intros Hmode Hanim Hshake Hrolls Hdraw Hes.
  pose proof (accepted_keydown_r s Hmode Hanim Hrolls) as Hkey.
  set (s1 := set_shake (Some 0%nat) (set_rollsLeft (rollsLeft s - 1) (set_isAnimating true s)))
    in *.
  assert (scene_drawable s1) as Hdraw1 by exact Hdraw.
  assert (∀ n, (frames es = n)%nat → (n < stepsIn + shakeFrames + stepsOut)%nat →
            run random es s1 = run random (replicate n AnimationFrame) s1) as Hrun.
  { intros n <- Hn. by apply (run_shake_inputs es s1 0). }
  split.
  - intros Hlt. rewrite run_cons. cbn [handle]. rewrite Hkey.
    rewrite (Hrun _ eq_refl) by (unfold stepsIn, shakeFrames, stepsOut in *; lia).
    rewrite (run_drawing_frames random (frames es) 0 s1)
      by first [done | exact Hdraw1 | left; lia].
    done.
  - intros Hall. rewrite <- (run_reroll random random_range s) by done.
    unfold reroll_events.
    rewrite !run_cons. cbn [handle]. rewrite Hkey, run_app.
    rewrite (Hrun _ Hall) by (unfold stepsIn, shakeFrames, stepsOut; lia).
    by rewrite <- run_app.
Qed.

End ShakeInput.

Lemma shake_ignores_input_witness :
  (∀ n, (0 <= sample_random n < 1)%Q)
  ∧ gameMode second_die_kept_loaded = rolling
  ∧ isAnimating second_die_kept_loaded = false
  ∧ shake second_die_kept_loaded = None
  ∧ 0 < rollsLeft second_die_kept_loaded
  ∧ scene_drawable second_die_kept_loaded
  ∧ Forall (λ e, is_input e ∨ e = AnimationFrame) busy_shake
  ∧ frames busy_shake = (stepsIn + shakeFrames + stepsOut - 1)%nat
  ∧ run sample_random (Keydown "r" :: busy_shake ++ [AnimationFrame]) second_die_kept_loaded
    = set_rollsLeft (rollsLeft second_die_kept_loaded - 1)
        (rollDice sample_random second_die_kept_loaded).
Proof.
  assert (Forall (λ e, is_input e ∨ e = AnimationFrame) busy_shake) as Hes.
  { unfold busy_shake. cbn [replicate app].
    repeat (apply Forall_cons_2; [first [by right | by left]|]). apply Forall_nil_2. }
  assert (frames busy_shake = (stepsIn + shakeFrames + stepsOut - 1)%nat) as Hframes
    by (vm_compute; reflexivity).
  assert (gameMode second_die_kept_loaded = rolling) as Hmode by (vm_compute; reflexivity).
  assert (isAnimating second_die_kept_loaded = false) as Hanim by (vm_compute; reflexivity).
  assert (shake second_die_kept_loaded = None) as Hshake by (vm_compute; reflexivity).
  assert (0 < rollsLeft second_die_kept_loaded) as Hrolls by (vm_compute; reflexivity).
  pose proof second_die_kept_loaded_drawable as Hdraw.
  split; [exact sample_random_range|].
  split_and!; try assumption.
  exact (proj2 (shake_ignores_input sample_random sample_random_range second_die_kept_loaded
                  busy_shake Hmode Hanim Hshake Hrolls Hdraw Hes) Hframes).
Defined.

(** ** The dice in reachable states *)

Section DiceFaces.

Variable random : nat → Q.

Hypothesis random_range : ∀ n, (0 <= random n < 1)%Q.

Lemma beginPlayerTurn_ready (s : state) : dice_ready (beginPlayerTurn random s).
Proof. by destruct (beginPlayerTurn_fresh random random_range s) as (_ & _ & _ & _ & ? & _). Qed.

Lemma nextPlayerOrRound_ready (s : state) :
  dice_ready s → dice_ready (nextPlayerOrRound random s).
Proof.
  intros Hs. unfold nextPlayerOrRound. cbv zeta.
  repeat case_bool_decide; first [exact Hs | apply beginPlayerTurn_ready].
Qed.

Lemma diceValues_on_keydown (k : string) (s : state) :
  diceValues (on_keydown k s) = diceValues s.
Proof.
  unfold on_keydown, animateCupShake.
  destruct (_ && _) eqn:Hguard; [|done].
  apply andb_true_iff in Hguard as [_ ->%negb_true_iff].
  repeat case_bool_decide; try done.
  by destruct (openScoreSelectionOverlay_shape
                 (set_gameMode scoreSelection (set_turnEnded true s))) as [->|[c ->]].
Qed.

(** Every event keeps the dice showing faces once they do, and keeps the
    page as it is before the first game until a game is started. *)
Lemma dice_handle (e : event) (s : state) :
  dice_ready s ∨ not_started s → dice_ready (handle random e s) ∨ not_started (handle random e s).
Proof.
  intros [Hs|Hs].
  - left. destruct e as [k|hit| | | | |n|cat forceZero|]; cbn [handle]; try exact Hs.
    + unfold dice_ready. by rewrite diceValues_on_keydown.
    + unfold on_mousedown. by repeat case_match.
    + destruct (resumeCupShake_shape random s) as (sh & an & s0 & [->| ->] & -> & _);
        [done|].
      by apply rollDice_ready.
    + unfold gameLoop, openFinalScoresOverlay. by repeat case_match.
    + apply beginPlayerTurn_ready.
    + unfold selectScoreCategory, applyScoreToCategory.
      destruct (scoreboards s !! currentPlayer s); [|done].
      destruct forceZero; cbn [mbind option_bind]; by apply nextPlayerOrRound_ready.
  - destruct Hs as (Hdice & Hshake & Hmode & Hsbs).
    destruct e as [k|hit| | | | |n|cat forceZero|]; cbn [handle];
      try (right; by split_and!).
    + right. unfold on_keydown. rewrite Hmode. by split_and!.
    + right. unfold on_mousedown. rewrite Hmode. by split_and!.
    + right. unfold resumeCupShake. rewrite Hshake. by split_and!.
    + right. unfold gameLoop. rewrite Hmode. destruct (_ || _); by split_and!.
    + left. apply beginPlayerTurn_ready.
    + right. unfold selectScoreCategory, applyScoreToCategory. rewrite Hsbs.
      by split_and!.
Qed.

Lemma dice_run (es : list event) (s : state) :
  dice_ready s ∨ not_started s → dice_ready (run random es s) ∨ not_started (run random es s).
Proof.
  revert s. induction es as [|e es IH]; intros s Hs; [done|].
  rewrite run_cons. by apply IH, dice_handle.
Qed.

(** X9: in every state the page reaches there are five dice, each 0 or a
    face from 1 to 6, and once a game has been started (the page is no
    longer prompting for players) every die shows a face from 1 to 6, so
    that [diceFaces[val - 1]] is one of the six faces. *)
Theorem dice_faces_in_range (es : list event) :
  length (diceValues (run random es initial_state)) = NUM_DICE
  ∧ Forall (λ v, 0 ≤ v ≤ 6) (diceValues (run random es initial_state))
  ∧ (gameMode (run random es initial_state) ≠ promptPlayers →
     Forall (λ v, 0 ≤ v - 1 < 6) (diceValues (run random es initial_state))).
Proof.
  destruct (well_formed_run random es initial_state) as (Hlen & _ & _); [by split_and!|].
  destruct (dice_run es initial_state) as [Hready|(Hzero & _ & Hmode & _)].
  { right. by split_and!. }
  - split_and!; [done| |intros _]; eapply Forall_impl; try exact Hready; simpl; lia.
  - split_and!; [done| |done]. rewrite Hzero. repeat constructor; lia.
Qed.

End DiceFaces.

Lemma dice_faces_in_range_witness :
  (∀ n, (0 <= sample_random n < 1)%Q)
  ∧ gameMode (run sample_random [SetNumberOfPlayers 1; Keydown "e"] initial_state)
    ≠ promptPlayers
  ∧ Forall (λ v, 0 ≤ v - 1 < 6)
      (diceValues (run sample_random [SetNumberOfPlayers 1; Keydown "e"] initial_state)).
Proof.
  pose proof (dice_faces_in_range sample_random sample_random_range
                [SetNumberOfPlayers 1; Keydown "e"]) as (_ & _ & Hfaces).
  assert (gameMode (run sample_random [SetNumberOfPlayers 1; Keydown "e"] initial_state)
          ≠ promptPlayers) as Hmode by (vm_compute; congruence).
  split; [exact sample_random_range|]. split; [exact Hmode|exact (Hfaces Hmode)].
Defined.

(** X16: in every state the page reaches there are five dice and five kept
    flags, and [isAnimating] is set while a call of [animateCupShake] is
    suspended between two of its frames.  The converse does not hold: when
    a game is started and the R key pressed before the sprite sheets have
    loaded, the first frame ends the call by the exception of its drawing,
    and [isAnimating] is set with no call suspended. *)
Theorem shake_flag_reachable (random : nat → Q) (es : list event) :
  length (diceValues (run random es initial_state)) = NUM_DICE
  ∧ length (diceKept (run random es initial_state)) = NUM_DICE
  ∧ (is_Some (shake (run random es initial_state))
     → isAnimating (run random es initial_state) = true)
  ∧ isAnimating
      (run random [SetNumberOfPlayers 1; Keydown "r"; AnimationFrame] initial_state) = true
  ∧ shake (run random [SetNumberOfPlayers 1; Keydown "r"; AnimationFrame] initial_state)
    = None.
Proof.
  destruct (well_formed_run random es initial_state) as (Hv & Hk & Hanim); [by split_and!|].
  split_and!; [done..| |reflexivity|reflexivity].
  intros [k Hk']. destruct (isAnimating _); [done|].
  specialize (Hanim eq_refl). congruence.
Qed.

(** ** A cup shake without the sprite sheets *)

Section Unloaded.

Variable random : nat → Q.

Lemma set_loaded_eta (s : state) :
  s = set_diceFacesLoaded (diceFacesLoaded s) (set_cupFramesLoaded (cupFramesLoaded s) s).
Proof. by destruct s. Qed.

(** With [isAnimating] set and no call of [animateCupShake] suspended, the
    rolling screen takes no event but the loading of the sprite sheets. *)
Lemma stuck_handle (e : event) (s : state) :
  isAnimating s = true → shake s = None → gameMode s = rolling → is_arrival e →
  ∃ dice cup, handle random e s = set_diceFacesLoaded dice (set_cupFramesLoaded cup s).
Proof.
  intros Hanim Hshake Hmode He.
  assert (handle random e s = s ∨ handle random e s = set_diceFacesLoaded true s
          ∨ handle random e s = set_cupFramesLoaded true s) as Hcases.
  { destruct e; try done; cbn [handle]; auto.
    - left. unfold on_keydown. by rewrite Hanim, andb_false_r.
    - left. unfold on_mousedown. by rewrite Hanim, andb_false_r.
    - left. unfold resumeCupShake. by rewrite Hshake.
    - left. unfold gameLoop. rewrite Hmode. by destruct (_ || _). }
  destruct Hcases as [->|[->| ->]].
  - exists (diceFacesLoaded s), (cupFramesLoaded s). apply set_loaded_eta.
  - exists true, (cupFramesLoaded s). by destruct s.
  - exists (diceFacesLoaded s), true. by destruct s.
Qed.

Lemma stuck_run (es : list event) (s : state) :
  isAnimating s = true → shake s = None → gameMode s = rolling → Forall is_arrival es →
  ∃ dice cup, run random es s = set_diceFacesLoaded dice (set_cupFramesLoaded cup s).
Proof.
  intros Hanim Hshake Hmode Hes. revert s Hanim Hshake Hmode.
  induction Hes as [|e es He _ IH]; intros s Hanim Hshake Hmode.
  { exists (diceFacesLoaded s), (cupFramesLoaded s). apply set_loaded_eta. }
  rewrite run_cons.
  destruct (stuck_handle e s Hanim Hshake Hmode He) as (dice & cup & ->).
  destruct (IH (set_diceFacesLoaded dice (set_cupFramesLoaded cup s)))
    as (dice' & cup' & ->); [done..|].
  by exists dice', cup'.
Qed.

(** X17: when the R key is accepted while a sprite sheet has not loaded,
    the first animation frame ends the cup shake by the exception of
    [ctx.drawImage]: one roll has been taken from rolls-left, the dice are
    never rolled and [isAnimating] stays set, so that from then on the
    rolling screen ignores every key, click, frame and render tick; only
    the two loaded flags can still change. *)
Theorem unloaded_shake_sticks (s : state) (es : list event) :
  gameMode s = rolling → isAnimating s = false → shake s = None → 0 < rollsLeft s →
  diceFacesLoaded s = false ∨ cupFramesLoaded s = false →
  Forall is_arrival es →
  run random [Keydown "r"; AnimationFrame] s
  = set_rollsLeft (rollsLeft s - 1) (set_isAnimating true s)
  ∧ ∃ dice cup,
      run random (Keydown "r" :: AnimationFrame :: es) s
      = set_diceFacesLoaded dice
          (set_cupFramesLoaded cup
             (set_rollsLeft (rollsLeft s - 1) (set_isAnimating true s))).
Proof.
  intros Hmode Hanim Hshake Hrolls Hload Hes.
  assert (run random [Keydown "r"; AnimationFrame] s
          = set_rollsLeft (rollsLeft s - 1) (set_isAnimating true s)) as Hthrow.
  { rewrite !run_cons. cbn [handle run foldl]. rewrite accepted_keydown_r by done.
    unfold resumeCupShake. cbn [shake set_shake].
    rewrite (bool_decide_eq_true_2 (1 ≤ stepsIn)%nat) by (unfold stepsIn; lia).
    rewrite draw_throws by exact Hload.
    destruct s; simpl in *; by subst. }
  split; [exact Hthrow|].
  change (Keydown "r" :: AnimationFrame :: es) with ([Keydown "r"; AnimationFrame] ++ es).
  rewrite run_app, Hthrow. by apply stuck_run.
Qed.

End Unloaded.

Lemma unloaded_shake_sticks_witness :
  gameMode started_unloaded = rolling
  ∧ isAnimating started_unloaded = false
  ∧ shake started_unloaded = None
  ∧ 0 < rollsLeft started_unloaded
  ∧ (diceFacesLoaded started_unloaded = false ∨ cupFramesLoaded started_unloaded = false)
  ∧ Forall is_arrival stuck_inputs
  ∧ run sample_random [Keydown "r"; AnimationFrame] started_unloaded
    = set_rollsLeft (rollsLeft started_unloaded - 1) (set_isAnimating true started_unloaded)
  ∧ ∃ dice cup,
      run sample_random (Keydown "r" :: AnimationFrame :: stuck_inputs) started_unloaded
      = set_diceFacesLoaded dice
          (set_cupFramesLoaded cup
             (set_rollsLeft (rollsLeft started_unloaded - 1)
                (set_isAnimating true started_unloaded))).
Proof.
  assert (gameMode started_unloaded = rolling) as Hmode by (vm_compute; reflexivity).
  assert (isAnimating started_unloaded = false) as Hanim by (vm_compute; reflexivity).
  assert (shake started_unloaded = None) as Hshake by (vm_compute; reflexivity).
  assert (0 < rollsLeft started_unloaded) as Hrolls by (vm_compute; reflexivity).
  assert (diceFacesLoaded started_unloaded = false ∨ cupFramesLoaded started_unloaded = false)
    as Hload by (left; vm_compute; reflexivity).
  assert (Forall is_arrival stuck_inputs) as Hes.
  { unfold stuck_inputs. repeat (apply Forall_cons_2; [exact I|]). apply Forall_nil_2. }
  do 6 (split; [assumption|]).
  exact (unloaded_shake_sticks sample_random started_unloaded stuck_inputs
           Hmode Hanim Hshake Hrolls Hload Hes).
Defined.

(** ** Handlers that read the current scoreboard *)

Lemma mapM_lookup_seq {A} (pre l : list A) :
  mapM (λ p, (pre ++ l) !! p) (seq (length pre) (length l)) = Some l.
Proof.
  revert pre. induction l as [|x l IH]; intros pre; [done|].
  cbn [length seq mapM]. rewrite lookup_app_r, Nat.sub_diag by lia. cbn.
  replace (pre ++ x :: l) with ((pre ++ [x]) ++ l) by by rewrite <- app_assoc.
  specialize (IH (pre ++ [x])). rewrite length_app in IH. cbn in IH.
  rewrite Nat.add_1_r in IH. by rewrite IH.
Qed.

Lemma mapM_lookup_all {A} (l : list A) : mapM (λ p, l !! p) (seq 0 (length l)) = Some l.
Proof. exact (mapM_lookup_seq [] l). Qed.

(** X10: during a game of at least one player no handler throws: the
    current player always has a scoreboard, so ending the turn always opens
    the score table, a commit is always applied, and the final table can be
    computed for every player. *)
Theorem handlers_never_throw (random : nat → Q) (N : nat) (s0 : state) (es : list event) :
  (1 ≤ N)%nat → Forall in_game es →
  is_Some (scoreboards (run random es (setNumberOfPlayers random N s0))
             !! currentPlayer (run random es (setNumberOfPlayers random N s0)))
  ∧ is_Some (openScoreSelectionOverlay (run random es (setNumberOfPlayers random N s0)))
  ∧ (∀ cat vals forceZero,
       is_Some (applyScoreToCategory cat vals
                  (currentPlayer (run random es (setNumberOfPlayers random N s0))) forceZero
                  (run random es (setNumberOfPlayers random N s0))))
  ∧ mapM (λ p, scoreboards (run random es (setNumberOfPlayers random N s0)) !! p)
      (seq 0 (numPlayers (run random es (setNumberOfPlayers random N s0))))
    = Some (scoreboards (run random es (setNumberOfPlayers random N s0))).
Proof.
  intros HN Hes.
  destruct (setNumberOfPlayers_game_inv random N s0 HN) as [Hinv0 _].
  destruct (run_game_inv random N es _ Hes Hinv0) as [(Hn & Hlen & Hp & _) _].
  set (s := run random es (setNumberOfPlayers random N s0)) in *.
  destruct (lookup_lt_is_Some_2 (scoreboards s) (currentPlayer s)) as [sb Hsb]; [lia|].
  split_and!.
  - by exists sb.
  - unfold openScoreSelectionOverlay. rewrite Hsb. by eexists.
  - intros cat vals forceZero. unfold applyScoreToCategory. rewrite Hsb.
    destruct forceZero; by eexists.
  - rewrite Hn, <- Hlen. apply mapM_lookup_all.
Qed.

Lemma handlers_never_throw_witness :
  (1 ≤ 2)%nat
  ∧ Forall in_game [Keydown "e"; SelectScoreCategory Chance false; Keydown "r"]
  ∧ is_Some (openScoreSelectionOverlay
       (run sample_random [Keydown "e"; SelectScoreCategory Chance false; Keydown "r"]
          (setNumberOfPlayers sample_random 2 initial_state))).
Proof.
  assert (Forall in_game [Keydown "e"; SelectScoreCategory Chance false; Keydown "r"]) as Hes
    by (repeat constructor).
  split; [lia|]. split; [exact Hes|].
  exact (proj1 (proj2 (handlers_never_throw sample_random 2 initial_state _ ltac:(lia) Hes))).
Defined.

(** ** The final table *)

(** X13: the render tick changes the state only when the game is over, both
    sprite sheets are loaded and the overlay is not active; it then opens the
    table of final scores, with the final score of every player's
    scoreboard, and a second tick changes nothing more. *)
Theorem final_scores_overlay (s : state) :
  gameLoop (gameLoop s) = gameLoop s
  ∧ (gameMode s ≠ gameOver → gameLoop s = s)
  ∧ (overlayActive s = true → gameLoop s = s)
  ∧ (diceFacesLoaded s = false ∨ cupFramesLoaded s = false → gameLoop s = s)
  ∧ (gameMode s = gameOver → diceFacesLoaded s = true → cupFramesLoaded s = true →
     overlayActive s = false → length (scoreboards s) = numPlayers s →
     gameLoop s
     = set_overlayActive true
         (set_overlayContent (FinalScores (calculateFinalScore <$> scoreboards s)) s)).
Proof.
  split_and!.
  - assert (gameLoop s = s ∨ overlayActive (gameLoop s) = true) as [Hsame|Hopen].
    { unfold gameLoop, openFinalScoresOverlay.
      destruct (_ || _); [by left|]. destruct (gameMode s); try (by left).
      destruct (negb (overlayActive s)); [|by left].
      destruct (mapM _ _); [by right|by left]. }
    + by rewrite !Hsame.
    + generalize dependent (gameLoop s). intros t Ht.
      unfold gameLoop, openFinalScoresOverlay. rewrite Ht.
      destruct (_ || _); [done|]. by destruct (gameMode t).
  - intros Hmode. unfold gameLoop. destruct (_ || _); [done|]. by destruct (gameMode s).
  - intros Hactive. unfold gameLoop, openFinalScoresOverlay. rewrite Hactive.
    destruct (_ || _); [done|]. by destruct (gameMode s).
  - intros Hl. unfold gameLoop. by destruct Hl as [-> | ->]; rewrite ?orb_true_r.
  - intros Hmode Hd Hc Hactive Hlen. unfold gameLoop, openFinalScoresOverlay.
    rewrite Hmode, Hd, Hc, Hactive. cbn [negb orb].
    by rewrite <- Hlen, mapM_lookup_all.
Qed.

(** ** A commit and the final score *)

Lemma set_entries_cons (sb : scoreboard) (k : category) (keys : list category) :
  set_entries sb (k :: keys)
  = match sb_get sb k with
    | Some v => v :: set_entries sb keys
    | None => set_entries sb keys
    end.
Proof. reflexivity. Qed.

(** Setting an unset entry adds its score to the sum of the set entries of
    every list of distinct keys that has the category, and one to their
    number. *)
Lemma set_entries_set (sb : scoreboard) (cat : category) (v : Z) (keys : list category) :
  NoDup keys → sb_get sb cat = None →
  sum_of (set_entries (sb_set sb cat (Some v)) keys)
  = sum_of (set_entries sb keys) + (if decide (cat ∈ keys) then v else 0)
  ∧ length (set_entries (sb_set sb cat (Some v)) keys)
    = (length (set_entries sb keys) + if decide (cat ∈ keys) then 1 else 0)%nat.
Proof.
  intros Hnd Hnull. induction Hnd as [|k keys Hk Hnd IH].
  - by rewrite decide_False by apply not_elem_of_nil.
  - rewrite !set_entries_cons. destruct IH as [IHs IHl].
    destruct (decide (cat = k)) as [<-|Hne].
    + rewrite sb_get_set_eq, Hnull.
      destruct (decide (cat ∈ cat :: keys)) as [_|Hn]; [|destruct Hn; left].
      rewrite decide_False in IHs by done. rewrite decide_False in IHl by done.
      unfold sum_of in *. cbn [foldr length]. rewrite IHs, IHl. split; lia.
    + rewrite sb_get_set_ne by done.
      assert ((if decide (cat ∈ k :: keys) then v else 0)
              = (if decide (cat ∈ keys) then v else 0)) as ->.
      { repeat case_decide; set_solver. }
      assert ((if decide (cat ∈ k :: keys) then 1 else 0)%nat
              = (if decide (cat ∈ keys) then 1 else 0)%nat) as ->.
      { repeat case_decide; set_solver. }
      destruct (sb_get sb k); unfold sum_of in *; cbn [foldr length]; split; lia.
Qed.

Lemma NoDup_upperKeys : NoDup upperKeys.
Proof. apply (bool_decide_unpack _). reflexivity. Qed.

Lemma NoDup_lowerKeys : NoDup lowerKeys.
Proof. apply (bool_decide_unpack _). reflexivity. Qed.

Lemma NoDup_catMap : NoDup catMap.
Proof. apply (bool_decide_unpack _). reflexivity. Qed.

(** X14: committing a non-negative score to an unset category adds the
    score to the subtotal of the category's section and leaves the other
    subtotal alone; the bonus never shrinks, and the total grows by the
    score, and by 35 more at most. *)
Theorem commit_raises_final_score (sb : scoreboard) (cat : category) (v : Z) :
  sb_get sb cat = None → 0 ≤ v →
  ∃ up bonus low total up' bonus' low' total',
    calculateFinalScore sb = (up, bonus, low, total)
    ∧ calculateFinalScore (sb_set sb cat (Some v)) = (up', bonus', low', total')
    ∧ (cat ∈ upperKeys → up' = up + v ∧ low' = low)
    ∧ (cat ∈ lowerKeys → up' = up ∧ low' = low + v)
    ∧ (cat ∈ upperKeys ∨ cat ∈ lowerKeys)
    ∧ bonus ≤ bonus'
    ∧ total + v ≤ total' ≤ total + v + 35.
Proof.
  intros Hnull Hv. unfold calculateFinalScore. do 8 eexists.
  split; [reflexivity|]. split; [reflexivity|].
  rewrite !add_if_set_loop.
  destruct (set_entries_set sb cat v upperKeys NoDup_upperKeys Hnull) as [-> _].
  destruct (set_entries_set sb cat v lowerKeys NoDup_lowerKeys Hnull) as [-> _].
  assert ((cat ∈ upperKeys ∧ (cat ∉ lowerKeys)) ∨ ((cat ∉ upperKeys) ∧ cat ∈ lowerKeys)) as Hsec.
  { destruct cat;
      first [ left; split; apply (bool_decide_unpack _); vm_compute; exact I
            | right; split; apply (bool_decide_unpack _); vm_compute; exact I ]. }
  destruct Hsec as [[Hu Hl]|[Hu Hl]].
  - rewrite (decide_True _ _ Hu), (decide_False _ _ Hl).
    split_and!; try done; try tauto; repeat case_match; lia.
  - rewrite (decide_False _ _ Hu), (decide_True _ _ Hl).
    split_and!; try done; try tauto; repeat case_match; lia.
Qed.

Lemma commit_raises_final_score_witness :
  sb_get new_scoreboard Sixes = None
  ∧ 0 ≤ 24
  ∧ ∃ up bonus low total up' bonus' low' total',
      calculateFinalScore new_scoreboard = (up, bonus, low, total)
      ∧ calculateFinalScore (sb_set new_scoreboard Sixes (Some 24))
        = (up', bonus', low', total')
      ∧ (Sixes ∈ upperKeys → up' = up + 24 ∧ low' = low)
      ∧ (Sixes ∈ lowerKeys → up' = up ∧ low' = low + 24)
      ∧ (Sixes ∈ upperKeys ∨ Sixes ∈ lowerKeys)
      ∧ bonus ≤ bonus'
      ∧ total + 24 ≤ total' ≤ total + 24 + 35.
Proof.
  split; [reflexivity|]. split; [lia|].
  exact (commit_raises_final_score new_scoreboard Sixes 24 eq_refl ltac:(lia)).
Defined.

(** ** Clicks on the dice *)

Lemma find_first_hit (hit : nat → bool) (start n i : nat) :
  (start ≤ i < start + n)%nat → hit i = true → (∀ j, (start ≤ j < i)%nat → hit j = false) →
  List.find hit (seq start n) = Some i.
Proof.
  revert start. induction n as [|n IH]; intros start Hi Hhit Hfirst; [lia|].
  cbn [seq List.find]. destruct (decide (start = i)) as [->|Hne].
  - by rewrite Hhit.
  - rewrite Hfirst by lia. apply IH; [lia|done|]. intros j Hj. apply Hfirst. lia.
Qed.

Lemma find_no_hit (hit : nat → bool) (start n : nat) :
  (∀ j, (start ≤ j < start + n)%nat → hit j = false) → List.find hit (seq start n) = None.
Proof.
  revert start. induction n as [|n IH]; intros start Hnone; [done|].
  cbn [seq List.find]. rewrite Hnone by lia. apply IH. intros j Hj. apply Hnone. lia.
Qed.

Lemma alter_negb_twice (i : nat) (l : list bool) : alter negb i (alter negb i l) = l.
Proof.
  revert i. induction l as [|b l IH]; intros [|i]; cbn; [done..| |].
  - by rewrite negb_involutive.
  - f_equal. apply IH.
Qed.

(** X6: a click changes nothing but the kept flags, and only while the page
    is rolling and no cup shake is in progress; it toggles the flag of the
    first die it hits and no other flag, does nothing when it hits no die,
    and a second click at the same place undoes the first. *)
Theorem click_toggles_first_hit (hit : nat → bool) (s : state) :
  on_mousedown hit (on_mousedown hit s) = s
  ∧ on_mousedown hit s = set_diceKept (diceKept (on_mousedown hit s)) s
  ∧ (gameMode s ≠ rolling ∨ isAnimating s = true → on_mousedown hit s = s)
  ∧ ((∀ i, (i < NUM_DICE)%nat → hit i = false) → on_mousedown hit s = s)
  ∧ (∀ i, gameMode s = rolling → isAnimating s = false →
          (i < NUM_DICE)%nat → hit i = true → (∀ j, (j < i)%nat → hit j = false) →
          diceKept (on_mousedown hit s) !! i = negb <$> diceKept s !! i
          ∧ ∀ j, j ≠ i → diceKept (on_mousedown hit s) !! j = diceKept s !! j).
Proof.
  split_and!.
  - unfold on_mousedown at 2. destruct (_ && _) eqn:Hguard;
      [|unfold on_mousedown; by rewrite Hguard].
    destruct (List.find hit (seq 0 NUM_DICE)) as [i|] eqn:Hfind.
    + unfold on_mousedown. cbn [gameMode isAnimating diceKept set_diceKept].
      rewrite Hguard, Hfind, alter_negb_twice. by destruct s.
    + unfold on_mousedown. by rewrite Hguard, Hfind.
  - unfold on_mousedown. repeat case_match; by destruct s.
  - intros Hrej. unfold on_mousedown. destruct Hrej as [Hmode| ->].
    + by rewrite bool_decide_eq_false_2.
    + by rewrite andb_false_r.
  - intros Hnone. unfold on_mousedown. rewrite find_no_hit; [by destruct (_ && _)|].
    intros j Hj. apply Hnone. lia.
  - intros i Hmode Hanim Hi Hhit Hfirst. unfold on_mousedown.
    rewrite (bool_decide_eq_true_2 _ Hmode), Hanim. cbn [negb andb].
    rewrite (find_first_hit hit 0 NUM_DICE i) by (done || lia || (intros; apply Hfirst; lia)).
    cbn [diceKept set_diceKept]. split.
    + apply list_lookup_alter_eq.
    + intros j Hj. by apply list_lookup_alter_ne.
Qed.

(** ** Ending the turn *)

(** X15: the E key ends the turn whatever rolls are left: the page goes to
    score selection and shows the table of the current player for the
    current dice, with dice, flags, rolls-left and scoreboards as they were.
    From then on keys, clicks, animation frames and render ticks change
    nothing, so that only a button of the overlay leads on. *)
Theorem end_turn_locks_input (random : nat → Q) (s : state) (k : string) (sb : scoreboard) :
  gameMode s = rolling → isAnimating s = false → shake s = None →
  k = "e"%string ∨ k = "E"%string →
  scoreboards s !! currentPlayer s = Some sb →
  on_keydown k s
  = set_overlayActive true
      (set_overlayContent
         (ScoreTable (currentPlayer s) (diceValues s)
            (score_row (calculatePossibleScores (diceValues s)) sb <$> catMap))
         (set_gameMode scoreSelection (set_turnEnded true s)))
  ∧ ∀ e, is_input e ∨ e = AnimationFrame →
         handle random e (on_keydown k s) = on_keydown k s.
Proof.
  intros Hmode Hanim Hshake Hk Hsb.
  assert (on_keydown k s
    = set_overlayActive true
        (set_overlayContent
           (ScoreTable (currentPlayer s) (diceValues s)
              (score_row (calculatePossibleScores (diceValues s)) sb <$> catMap))
           (set_gameMode scoreSelection (set_turnEnded true s)))) as ->.
  { unfold on_keydown. rewrite (bool_decide_eq_true_2 _ Hmode), Hanim. cbn [negb andb].
    rewrite bool_decide_eq_false_2 by (intros [-> | ->]; by destruct Hk).
    rewrite (bool_decide_eq_true_2 _ Hk).
    unfold openScoreSelectionOverlay.
    cbn [scoreboards currentPlayer diceValues set_gameMode set_turnEnded].
    by rewrite Hsb. }
  split; [done|]. intros e [He| ->].
  - destruct e; try done; cbn [handle].
    unfold gameLoop. cbn [gameMode set_overlayActive set_overlayContent set_gameMode].
    by destruct (_ || _).
  - cbn [handle]. unfold resumeCupShake.
    cbn [shake set_overlayActive set_overlayContent set_gameMode set_turnEnded].
    by rewrite Hshake.
Qed.

Lemma end_turn_locks_input_witness :
  gameMode second_die_kept = rolling
  ∧ isAnimating second_die_kept = false
  ∧ shake second_die_kept = None
  ∧ scoreboards second_die_kept !! currentPlayer second_die_kept = Some new_scoreboard
  ∧ ∀ e, is_input e ∨ e = AnimationFrame →
         handle sample_random e (on_keydown "E" second_die_kept)
         = on_keydown "E" second_die_kept.
Proof.
  assert (gameMode second_die_kept = rolling) as Hmode by (vm_compute; reflexivity).
  assert (isAnimating second_die_kept = false) as Hanim by (vm_compute; reflexivity).
  assert (shake second_die_kept = None) as Hshake by (vm_compute; reflexivity).
  assert (scoreboards second_die_kept !! currentPlayer second_die_kept = Some new_scoreboard)
    as Hsb by (vm_compute; reflexivity).
  split_and!; try assumption.
  exact (proj2 (end_turn_locks_input sample_random second_die_kept "E" new_scoreboard
                  Hmode Hanim Hshake (or_intror eq_refl) Hsb)).
Defined.

(** ** The score table and the commit *)

Section Table.

Variable random : nat → Q.

Lemma offered_run_cons (e : event) (es : list event) (s : state) :
  offered_run random (e :: es) s
  = offered_run random es (if offered e s then handle random e s else s).
Proof. reflexivity. Qed.

(** Every event keeps the score table, while shown, live. *)
Lemma table_live_handle (e : event) (s : state) :
  well_formed s → table_live s → table_live (handle random e s).
Proof.
  intros (_ & _ & Hanim) Hs.
  destruct e as [k|hit| | | | |n|cat forceZero|]; cbn [handle]; try exact Hs.
  - unfold on_keydown, animateCupShake.
    destruct (bool_decide (gameMode s = rolling)) eqn:Hmode; [|done].
    apply bool_decide_eq_true in Hmode.
    destruct (isAnimating s) eqn:Ha; [done|]. cbn [negb andb].
    assert (¬ (overlayActive s = true ∧ ∃ p d r, overlayContent s = ScoreTable p d r))
      as Hclosed.
    { intros (Hactive & p & d & r & Hc).
      destruct (Hs Hactive p d r Hc) as (_ & _ & Hsel & _). congruence. }
    repeat case_bool_decide; try done.
    + intros Hactive p d r Hc. destruct Hclosed. eauto 6.
    + unfold openScoreSelectionOverlay.
      cbn [scoreboards currentPlayer diceValues set_gameMode set_turnEnded].
      destruct (scoreboards s !! currentPlayer s) as [sb|] eqn:Hsb;
        cbn [mbind option_bind default].
      * intros _ p d r [= <- <- <-]. split_and!; try done; [by apply Hanim|by exists sb].
      * intros Hactive p d r Hc. destruct Hclosed. eauto 6.
  - unfold on_mousedown.
    destruct (bool_decide (gameMode s = rolling)) eqn:Hmode; [|done].
    apply bool_decide_eq_true in Hmode. destruct (negb _); [|done]. cbn [andb].
    destruct (List.find _ _); [|done].
    intros Hactive p d r Hc. destruct (Hs Hactive p d r Hc) as (_ & _ & Hsel & _). congruence.
  - destruct (shake s) as [waited|] eqn:Hw;
      [|unfold resumeCupShake; by rewrite Hw].
    assert (table_live s → ∀ s', overlayActive s' = overlayActive s →
              overlayContent s' = overlayContent s → table_live s') as Hdead.
    { intros _ s' Ha Hc Hactive p d r Hcontent. rewrite Ha in Hactive. rewrite Hc in Hcontent.
      destruct (Hs Hactive p d r Hcontent) as (_ & _ & _ & Hnone & _). congruence. }
    destruct (resumeCupShake_shape random s) as (sh & an & s0 & [->| ->] & -> & _);
      apply Hdead; try done.
    all: by destruct (rollDice_shape random s) as (vs & dr & ->).
  - unfold gameLoop, openFinalScoresOverlay. by repeat case_match.
  - by intros Hactive.
  - unfold selectScoreCategory. destruct (applyScoreToCategory _ _ _ _ _); [|done].
    intros Hactive. by rewrite overlay_nextPlayerOrRound in Hactive.
  - by intros _ p d r.
Qed.

Lemma live_offered_run (es : list event) (s : state) :
  well_formed s → table_live s →
  well_formed (offered_run random es s) ∧ table_live (offered_run random es s).
Proof.
  revert s. induction es as [|e es IH]; intros s Hwf Hlive; [done|].
  rewrite offered_run_cons. destruct (offered e s); [|by apply IH].
  apply IH; [by apply well_formed_handle|by apply table_live_handle].
Qed.

(** X11: in every run through the overlay, a commit button that can be
    pressed belongs to a row of the table of the current player and the
    current dice; its category is unset, the score the row shows is the
    possible score of the dice, and pressing Take Score writes that score
    (Zero This writes 0) to the category of that player. *)
Theorem offered_commit_writes_shown_score (es : list event) (cat : category)
    (forceZero : bool) :
  offered (SelectScoreCategory cat forceZero) (offered_run random es initial_state) = true →
  ∃ rows v,
    overlayContent (offered_run random es initial_state)
    = ScoreTable (currentPlayer (offered_run random es initial_state))
        (diceValues (offered_run random es initial_state)) rows
    ∧ Offer cat v ∈ rows
    ∧ calculatePossibleScores (diceValues (offered_run random es initial_state)) !! key cat
      = Some v
    ∧ entry (offered_run random es initial_state)
        (currentPlayer (offered_run random es initial_state)) cat = Some None
    ∧ entry (handle random (SelectScoreCategory cat forceZero)
               (offered_run random es initial_state))
        (currentPlayer (offered_run random es initial_state)) cat
      = Some (Some (if forceZero then 0 else v)).
Proof.
  destruct (live_offered_run es initial_state) as [_ Hlive].
  { by split_and!. }
  { by intros _ p d r. }
  set (s := offered_run random es initial_state) in *. intros Hoff.
  cbn [offered] in Hoff. apply andb_true_iff in Hoff as [Hactive Hoff].
  destruct (overlayContent s) as [|p d rows|] eqn:Hcontent; try done.
  destruct (Hlive Hactive p d rows Hcontent) as (-> & -> & _ & _ & sb & Hsb & ->).
  pose proof (offers_row _ _ _ Hoff) as Hnull.
  destruct (commit_step s cat (diceValues s) (currentPlayer s) forceZero sb Hsb)
    as (s' & v & Happly & Hv & Hentry & _ & _).
  exists (score_row (calculatePossibleScores (diceValues s)) sb <$> catMap), v.
  split_and!; try done.
  - apply list_elem_of_fmap. exists cat. split; [|apply elem_of_catMap].
    unfold score_row, possible_at. by rewrite Hnull, Hv.
  - unfold entry. rewrite Hsb. cbn. by rewrite Hnull.
  - cbn [handle]. unfold selectScoreCategory. rewrite Happly, entry_nextPlayerOrRound.
    exact Hentry.
Qed.

End Table.

Lemma offered_commit_writes_shown_score_witness :
  offered (SelectScoreCategory Twos false)
    (offered_run sample_random [SetNumberOfPlayers 1; Keydown "e"] initial_state) = true
  ∧ entry (handle sample_random (SelectScoreCategory Twos false)
             (offered_run sample_random [SetNumberOfPlayers 1; Keydown "e"] initial_state))
      0 Twos
    = Some (Some 6).
Proof.
  assert (offered (SelectScoreCategory Twos false)
            (offered_run sample_random [SetNumberOfPlayers 1; Keydown "e"] initial_state)
          = true) as Hoff by (vm_compute; reflexivity).
  split; [exact Hoff|].
  destruct (offered_commit_writes_shown_score sample_random
              [SetNumberOfPlayers 1; Keydown "e"] Twos false Hoff)
    as (rows & v & _ & _ & Hv & _ & Hwritten).
  assert (v = 6) as -> by (vm_compute in Hv; congruence).
  exact Hwritten.
Defined.

(** ** Complete scoreboards *)

Lemma set_entries_length (sb : scoreboard) (keys : list category) :
  (length (set_entries sb keys) ≤ length keys)%nat.
Proof.
  induction keys as [|k keys IH]; [done|].
  rewrite set_entries_cons. destruct (sb_get sb k); cbn [length]; lia.
Qed.

Lemma set_entries_full (sb : scoreboard) (keys : list category) :
  length (set_entries sb keys) = length keys → ∀ c, c ∈ keys → is_Some (sb_get sb c).
Proof.
  induction keys as [|k keys IH]; intros Hlen c Hc; [by apply elem_of_nil in Hc|].
  rewrite set_entries_cons in Hlen. pose proof (set_entries_length sb keys) as Hle.
  destruct (sb_get sb k) as [v|] eqn:Hk; cbn [length] in Hlen; [|lia].
  apply elem_of_cons in Hc as [->|Hc]; [by exists v|]. apply IH; [lia|done].
Qed.

Lemma filled_set (sb : scoreboard) (cat : category) (v : Z) :
  sb_get sb cat = None → filled (sb_set sb cat (Some v)) = S (filled sb).
Proof.
  intros Hnull. unfold filled.
  destruct (set_entries_set sb cat v catMap NoDup_catMap Hnull) as [_ ->].
  rewrite decide_True by apply elem_of_catMap. lia.
Qed.

Section Complete.

Variable random : nat → Q.

(** An offered commit keeps the count of set categories in step with the
    turns. *)
Lemma turns_filled_commit (N : nat) (cat : category) (forceZero : bool) (s : state) :
  game_inv N s → table_current s → turns_filled s →
  offered (SelectScoreCategory cat forceZero) s = true →
  turns_filled (selectScoreCategory random cat forceZero s).
Proof.
  intros (HN & Hlen & Hp & Hr & _) Htable Hfilled Hoff.
  cbn [offered] in Hoff. apply andb_true_iff in Hoff as [Hactive Hoff].
  destruct (overlayContent s) as [|player dice rows|] eqn:Hcontent; try done.
  destruct (Htable Hactive player dice rows Hcontent) as (-> & sb & Hsb & ->).
  apply offers_row in Hoff.
  unfold selectScoreCategory, applyScoreToCategory. rewrite Hsb. cbn [mbind option_bind].
  assert (∀ w, turns_filled
            (nextPlayerOrRound random
               (set_overlayActive false
                  (set_scoreboards
                     (<[currentPlayer s := sb_set sb cat (Some w)]> (scoreboards s)) s))))
    as Hgoal; [|by destruct forceZero].
  intros w.
  destruct (nextPlayerOrRound_fields random
              (set_overlayActive false
                 (set_scoreboards
                    (<[currentPlayer s := sb_set sb cat (Some w)]> (scoreboards s)) s)))
    as (_ & Hs' & Hp' & Hr' & _).
  cbn [numPlayers scoreboards currentPlayer currentRound set_overlayActive set_scoreboards]
    in Hs', Hp', Hr'.
  intros q sbq. rewrite Hs', Hp', Hr', HN. intros Hq.
  pose proof (lookup_lt_Some _ _ _ Hq) as Hqlt. rewrite length_insert in Hqlt.
  destruct (decide (q = currentPlayer s)) as [->|Hne].
  - rewrite list_lookup_insert_eq in Hq by lia. injection Hq as <-.
    rewrite (filled_set sb cat w Hoff), (Hfilled _ _ Hsb).
    repeat case_bool_decide; lia.
  - rewrite list_lookup_insert_ne in Hq by done. rewrite (Hfilled _ _ Hq).
    repeat case_bool_decide; lia.
Qed.

Lemma play_step (N : nat) (e : event) (s : state) :
  in_game e → offered e s = true →
  game_inv N s ∧ table_current s ∧ turns_filled s →
  game_inv N (handle random e s) ∧ table_current (handle random e s)
  ∧ turns_filled (handle random e s).
Proof.
  intros Hin Hoff (Hinv & Htable & Hfilled).
  split; [by apply handle_game_inv|]. split; [by apply table_current_handle|].
  destruct (is_commit e) eqn:Hc.
  - destruct e; try done. cbn [handle]. by apply (turns_filled_commit N).
  - destruct (handle_not_commit random e s Hin Hc) as (_ & Hsb & Hr & Hp & _).
    intros q sb. rewrite Hsb, Hr, Hp. apply Hfilled.
Qed.

Lemma play_run (N : nat) (es : list event) (s : state) :
  Forall in_game es →
  game_inv N s ∧ table_current s ∧ turns_filled s →
  game_inv N (offered_run random es s) ∧ table_current (offered_run random es s)
  ∧ turns_filled (offered_run random es s).
Proof.
  intros Hes. revert s. induction Hes as [|e es He _ IH]; intros s Hs; [done|].
  rewrite offered_run_cons. destruct (offered e s) eqn:Hoff; [|by apply IH].
  by apply IH, (play_step N).
Qed.

(** X12: in a game of at least one player that is played through the
    overlay, every player has as many categories set as turns played, so
    that when the game is over every category of every player is set. *)
Theorem scoreboards_complete_at_game_over (N : nat) (s0 : state) (es : list event) :
  (1 ≤ N)%nat → Forall in_game es →
  turns_filled (offered_run random es (setNumberOfPlayers random N s0))
  ∧ (gameMode (offered_run random es (setNumberOfPlayers random N s0)) = gameOver →
     ∀ q cat, (q < N)%nat →
       ∃ v, entry (offered_run random es (setNumberOfPlayers random N s0)) q cat
            = Some (Some v)).
Proof.
  intros HN Hes.
  destruct (setNumberOfPlayers_game_inv random N s0 HN) as [Hinv0 _].
  destruct (play_run N es (setNumberOfPlayers random N s0) Hes)
    as ((Hn & Hlen & Hp & Hr & Hmode) & _ & Hfilled).
  { split; [done|]. split; [by intros Hactive|].
    intros q sb Hq.
    change (scoreboards (setNumberOfPlayers random N s0)) with (replicate N new_scoreboard)
      in Hq.
    apply lookup_replicate in Hq as [-> _]. reflexivity. }
  set (s := offered_run random es (setNumberOfPlayers random N s0)) in *.
  split; [done|]. intros Hover%Hmode q cat Hq.
  destruct (lookup_lt_is_Some_2 (scoreboards s) q) as [sb Hsb]; [lia|].
  pose proof (Hfilled q sb Hsb) as Hcount.
  pose proof (set_entries_length sb catMap) as Hle. fold (filled sb) in Hle.
  change (length catMap) with 13%nat in Hle. unfold MAX_TURNS in Hover.
  destruct (set_entries_full sb catMap) with (c := cat) as [v Hv].
  { fold (filled sb). change (length catMap) with 13%nat. case_bool_decide; lia. }
  { apply elem_of_catMap. }
  exists v. unfold entry. rewrite Hsb. cbn. by rewrite Hv.
Qed.

End Complete.

Lemma scoreboards_complete_at_game_over_witness :
  (1 ≤ 1)%nat
  ∧ Forall in_game [Keydown "e"; SelectScoreCategory Twos false; Keydown "e"]
  ∧ turns_filled
      (offered_run sample_random [Keydown "e"; SelectScoreCategory Twos false; Keydown "e"]
         (setNumberOfPlayers sample_random 1 initial_state)).
Proof.
  assert (Forall in_game [Keydown "e"; SelectScoreCategory Twos false; Keydown "e"]) as Hes
    by (repeat constructor).
  split; [lia|]. split; [exact Hes|].
  exact (proj1 (scoreboards_complete_at_game_over sample_random 1 initial_state _
                  ltac:(lia) Hes)).
Defined.

(** ** Write-once entries *)

(** X7: in runs from the start of the page in which a button takes effect
    only while the overlay is active and shows it, an entry that has been set
    keeps its value as long as no new game is started: the score table never
    offers a used category. *)
Theorem overlay_runs_write_once (random : nat → Q) (es es' : list event) (q : nat)
    (c : category) (v : Z) :
  Forall (λ e, ∀ n, e ≠ SetNumberOfPlayers n) es' →
  entry (offered_run random es initial_state) q c = Some (Some v) →
  entry (offered_run random (es ++ es') initial_state) q c = Some (Some v).
Proof.
  intros Hes Hset. unfold offered_run. rewrite foldl_app.
  fold (offered_run random es). fold (offered_run random es').
  apply offered_run_write_once; [|done..].
  apply table_current_run. by intros _ p d r.
Qed.

Lemma overlay_runs_write_once_witness :
  Forall (λ e, ∀ n, e ≠ SetNumberOfPlayers n)
    [Keydown "e"; SelectScoreCategory Twos true; SelectScoreCategory Ones false]
  ∧ entry (offered_run sample_random
             [SetNumberOfPlayers 1; Keydown "e"; SelectScoreCategory Twos false]
             initial_state) 0 Twos = Some (Some 6)
  ∧ entry (offered_run sample_random
             ([SetNumberOfPlayers 1; Keydown "e"; SelectScoreCategory Twos false]
              ++ [Keydown "e"; SelectScoreCategory Twos true; SelectScoreCategory Ones false])
             initial_state) 0 Twos = Some (Some 6).
Proof.
  assert (Forall (λ e, ∀ n, e ≠ SetNumberOfPlayers n)
            [Keydown "e"; SelectScoreCategory Twos true; SelectScoreCategory Ones false])
    as Hes by (repeat constructor; done).
  assert (entry (offered_run sample_random
             [SetNumberOfPlayers 1; Keydown "e"; SelectScoreCategory Twos false]
             initial_state) 0 Twos = Some (Some 6)) as Hset by (vm_compute; reflexivity).
  split; [exact Hes|]. split; [exact Hset|].
  exact (overlay_runs_write_once sample_random _ _ 0%nat Twos 6 Hes Hset).
Defined.
